(** * treelog: the Log contract, scoped generators and the record/replay engine

    A shallow embedding of [treelog/abc.py] and [treelog/rec.py].  Python
    objects with mutable fields become records threaded through the calls,
    methods that may raise return an [outcome], generators become explicit
    state machines over their suspension points, and the abstract base class
    [Log] becomes a type class whose instances are the backends. *)

From stdpp Require Import gmap strings list pretty.

Open Scope string_scope.
Open Scope list_scope.

(** ** Python values *)

(** Severity levels are the integers 0..4. *)
Definition level := nat.

(** A file identifier: [None] is Python's [None], [Some b] a bytes token. *)
Definition ident := option string.

(** Truth value of an identifier: [None] and the empty token are false. *)
Definition truthy (id : ident) : bool :=
  match id with
  | None => false
  | Some b => negb (String.eqb b "")
  end.

(** An exception instance. *)
Inductive exn := Exn (name : string).

Global Instance exn_eq_dec : EqDecision exn.
Proof. solve_decision. Defined.

Definition RuntimeError : exn := Exn "RuntimeError".
Definition IndexError : exn := Exn "IndexError".
Definition TypeError : exn := Exn "TypeError".
Definition AttributeError : exn := Exn "AttributeError".
Definition GeneratorExit : exn := Exn "GeneratorExit".

(** The result of a call: a returned value or a raised exception. *)
Inductive outcome (A : Type) :=
| Returns (a : A)
| Raises (e : exn).
Arguments Returns {A} a.
Arguments Raises {A} e.

(** The exception information handed to [__exit__]. *)
Definition exc_info {A} (r : outcome A) : option exn :=
  match r with
  | Returns _ => None
  | Raises e => Some e
  end.

(** ** contextlib *)

(** How a generator answers when it is resumed from its [yield]. *)
Inductive gen_reply :=
| GenStop                (* ran to its end: StopIteration *)
| GenRaise (e : exn)     (* an exception left the generator *)
| GenYield.              (* it yielded once more *)

(** [__exit__] of a [contextlib.contextmanager] object, given the exception
    (if any) thrown into the generator and the generator's answer.  The
    returned boolean tells the [with] statement to swallow the exception. *)
Definition contextmanager__exit__ (value : option exn) (reply : gen_reply)
  : outcome bool :=
  match value, reply with
  | None, GenStop => Returns false
  | None, GenRaise e => Raises e
  | None, GenYield => Raises RuntimeError
  | Some v, GenStop => Returns true
  | Some v, GenRaise e => if decide (e = v) then Returns false else Raises e
  | Some v, GenYield => Raises RuntimeError
  end.

(** The [with] statement over an enter/exit pair.  [H] is the object bound
    by [as]; the body may mutate it, [__exit__] sees it as the body left
    it, and so does the code after the statement. *)
Definition with_stmt {S H : Type}
    (enter : S → S * H)
    (exit : H → option exn → S → S * outcome bool)
    (body : H → S → S * H * outcome unit) (s : S) : S * H * outcome unit :=
  let '(s1, h) := enter s in
  let '(s2, h2, r) := body h s1 in
  match r with
  | Returns _ =>
      match exit h2 None s2 with
      | (s3, Returns _) => (s3, h2, Returns tt)
      | (s3, Raises e) => (s3, h2, Raises e)
      end
  | Raises e =>
      match exit h2 (Some e) s2 with
      | (s3, Returns true) => (s3, h2, Returns tt)
      | (s3, Returns false) => (s3, h2, Raises e)
      | (s3, Raises e') => (s3, h2, Raises e')
      end
  end.

(** ** abc.Log *)

(** The four abstract methods.  [S] is the state of the log object, [H] the
    state of the file object that [open] yields; [open] is given by the
    [__enter__] and [__exit__] of the context manager it returns. *)
Class Log (S H : Type) := {
  pushcontext : string → S → S;
  popcontext : S → S;
  write : string → level → S → S;
  open__enter__ : string → string → level → ident → S → S * H;
  open__exit__ : H → option exn → S → S * outcome bool;
  file_write : string → H → H;
}.
Arguments pushcontext {S H} L title s : rename.
Arguments popcontext {S H} L s : rename.
Arguments write {S H} L text lvl s : rename.
Arguments open__enter__ {S H} L filename mode lvl id s : rename.
Arguments open__exit__ {S H} L h value s : rename.
Arguments file_write {S H} L data h : rename.

Section Log.
Context {S H : Type} (self : Log S H).

(** [Log.context]: the generator pushes, yields, and pops in [finally]. *)
Definition context__enter__ (text : string) (s : S) : S * unit :=
  (pushcontext self text s, tt).

Definition context_resume (value : option exn) (s : S) : S * gen_reply :=
  let s := popcontext self s in
  match value with
  | None => (s, GenStop)
  | Some e => (s, GenRaise e)
  end.

Definition context__exit__ (_ : unit) (value : option exn) (s : S)
  : S * outcome bool :=
  let '(s, reply) := context_resume value s in
  (s, contextmanager__exit__ value reply).

(** [with self.context(text): body] *)
Definition context (text : string) (body : S → S * outcome unit) (s : S)
  : S * outcome unit :=
  let '(s, _, r) :=
    with_stmt (context__enter__ text) context__exit__
      (fun h s => let '(s, r) := body s in (s, h, r)) s in
  (s, r).
End Log.

(** ** _io *)

(** Modelled from the spec: the file objects of the [_io] module, which is
    not among the sources.  [_io.devnull] is the no-op sink whose writes are
    discarded; [_io.tempfile] is a real temporary buffer that keeps what is
    written to it and gives it back on [seek(0); read()]. *)
Inductive io_file :=
| devnull
| tempfile (content : string).

Definition io_write (data : string) (f : io_file) : io_file :=
  match f with
  | devnull => devnull
  | tempfile content => tempfile (content +:+ data)
  end.

Definition io_read (f : io_file) : string :=
  match f with
  | devnull => ""
  | tempfile content => content
  end.

(** ** rec.RecordLog *)

(** A recorded command, [(cmd, *args)] in the source. *)
Inductive command :=
| context_enter (title : string)
| context_exit
| open_enter (filename mode : string) (lvl : level) (id : ident)
| open_exit (data : option string)
| write_cmd (text : string) (lvl : level).

Global Instance command_eq_dec : EqDecision command.
Proof. solve_decision. Defined.

Record RecordLog := {
  _messages : list command;
  _seen : gmap ident string;
}.

(** [RecordLog()] *)
Definition RecordLog__init__ : RecordLog :=
  {| _messages := []; _seen := ∅ |}.

(** The frame of the generator behind [RecordLog.open], suspended at its
    [yield]: the locals [id], [data] and [f]. *)
Record open_frame := {
  o_id : ident;
  o_data : option string;
  o_f : io_file;
}.

Module Rec.

Definition append (c : command) (self : RecordLog) : RecordLog :=
  {| _messages := _messages self ++ [c]; _seen := _seen self |}.

Definition pushcontext (title : string) (self : RecordLog) : RecordLog :=
  append (context_enter title) self.

(** [self._messages and self._messages[-1][0] == 'context_enter'] *)
Definition last_is_context_enter (ms : list command) : bool :=
  match last ms with
  | Some (context_enter _) => true
  | _ => false
  end.

Definition popcontext (self : RecordLog) : RecordLog :=
  if last_is_context_enter (_messages self)
  then {| _messages := removelast (_messages self); _seen := _seen self |}
  else append context_exit self.

Definition write (text : string) (lvl : level) (self : RecordLog)
  : RecordLog :=
  append (write_cmd text lvl) self.


(** Up to the [yield]: record [open_enter], consult the seen-cache and
    open the sink or the buffer. *)
Definition open__enter__ (filename mode : string) (lvl : level) (id : ident)
    (self : RecordLog) : RecordLog * open_frame :=
  let self := append (open_enter filename mode lvl id) self in
  let data := _seen self !! id in
  match data with
  | Some _ => (self, {| o_id := id; o_data := data; o_f := devnull |})
  | None => (self, {| o_id := id; o_data := data; o_f := tempfile "" |})
  end.

(** From the [yield] on.  An exception thrown in at the [yield] skips the
    read-back and the cache update and reaches [finally] with [data] as it
    was; a normal resumption of the buffer branch reads the buffer back
    and stores it under a true [id]. *)
Definition open_resume (fr : open_frame) (value : option exn)
    (self : RecordLog) : RecordLog * gen_reply :=
  match value with
  | Some e => (append (open_exit (o_data fr)) self, GenRaise e)
  | None =>
      match o_data fr with
      | Some data => (append (open_exit (Some data)) self, GenStop)
      | None =>
          let data := io_read (o_f fr) in
          let self :=
            if truthy (o_id fr)
            then {| _messages := _messages self;
                    _seen := <[o_id fr := data]> (_seen self) |}
            else self in
          (append (open_exit (Some data)) self, GenStop)
      end
  end.

Definition open__exit__ (fr : open_frame) (value : option exn)
    (self : RecordLog) : RecordLog * outcome bool :=
  let '(self, reply) := open_resume fr value self in
  (self, contextmanager__exit__ value reply).

(** [f.write(data)] on the yielded file object. *)
Definition file_write (data : string) (fr : open_frame) : open_frame :=
  {| o_id := o_id fr; o_data := o_data fr; o_f := io_write data (o_f fr) |}.

(** A scope body, given as what it does to the yielded file object and to
    the recording; it has no access to the other locals of the frame. *)
Definition on_file
    (body : io_file → RecordLog → RecordLog * io_file * outcome unit)
    (fr : open_frame) (self : RecordLog)
  : RecordLog * open_frame * outcome unit :=
  let '(self, f, r) := body (o_f fr) self in
  (self, {| o_id := o_id fr; o_data := o_data fr; o_f := f |}, r).

(** [with self.open(filename, mode, level, id) as f: body] *)
Definition open (filename mode : string) (lvl : level) (id : ident)
    (body : io_file → RecordLog → RecordLog * io_file * outcome unit)
    (self : RecordLog) : RecordLog * outcome unit :=
  let '(self, _, r) :=
    with_stmt (open__enter__ filename mode lvl id) open__exit__
      (on_file body) self in
  (self, r).

End Rec.

Global Instance RecordLog_Log : Log RecordLog open_frame := {|
  pushcontext := Rec.pushcontext;
  popcontext := Rec.popcontext;
  write := Rec.write;
  open__enter__ := Rec.open__enter__;
  open__exit__ := Rec.open__exit__;
  file_write := Rec.file_write;
|}.

(** *** replay *)

(** An entry of the [contexts] list of [replay]: a context manager of
    [log.context], or the pair [(ctx, f)] of an open file scope. *)
Inductive entry (H : Type) :=
| entry_ctx
| entry_open (f : H).
Arguments entry_ctx {H}.
Arguments entry_open {H} f.

Section replay.
Context {S H : Type} (log : Log S H).

(** One turn of the loop of [replay]; the head of [contexts] is the end of
    the Python list. *)
Definition replay_cmd (c : command) (s : S) (contexts : list (entry H))
  : S * list (entry H) * outcome unit :=
  match c with
  | context_enter title =>
      let '(s, _) := context__enter__ log title s in
      (s, entry_ctx :: contexts, Returns tt)
  | context_exit =>
      match contexts with
      | [] => (s, contexts, Raises IndexError)
      | entry_ctx :: contexts =>
          match context__exit__ log tt None s with
          | (s, Returns _) => (s, contexts, Returns tt)
          | (s, Raises e) => (s, contexts, Raises e)
          end
      | entry_open _ :: contexts => (s, contexts, Raises AttributeError)
      end
  | open_enter filename mode lvl id =>
      let '(s, f) := open__enter__ log filename mode lvl id s in
      (s, entry_open f :: contexts, Returns tt)
  | open_exit data =>
      match contexts with
      | [] => (s, contexts, Raises IndexError)
      | entry_ctx :: contexts => (s, contexts, Raises TypeError)
      | entry_open f :: contexts =>
          let f := match data with
                   | Some d => file_write log d f
                   | None => f
                   end in
          match open__exit__ log f None s with
          | (s, Returns _) => (s, contexts, Returns tt)
          | (s, Raises e) => (s, contexts, Raises e)
          end
      end
  | write_cmd text lvl => (write log text lvl s, contexts, Returns tt)
  end.

(** The loop of [replay], as far as the target and [contexts] go. *)
Fixpoint replay_loop (ms : list command) (s : S) (contexts : list (entry H))
  : S * list (entry H) * outcome unit :=
  match ms with
  | [] => (s, contexts, Returns tt)
  | c :: ms =>
      match replay_cmd c s contexts with
      | (s, contexts, Returns _) => replay_loop ms s contexts
      | (s, contexts, Raises e) => (s, contexts, Raises e)
      end
  end.

(** What the interpreter does to a scope that was entered and is dropped
    without having been exited: it closes the generator behind it, which
    raises [GeneratorExit] at its [yield].  For [log.context] this runs
    [finally: self.popcontext()]; the scope of [log.open] is taken to be a
    generator as well, as it is for [RecordLog], so that its log ends up as
    after [__exit__] with that exception. *)
Definition reclaim_entry (e : entry H) (s : S) : S :=
  match e with
  | entry_ctx => (context_resume log (Some GeneratorExit) s).1
  | entry_open f => (open__exit__ log f (Some GeneratorExit) s).1
  end.

(** The variable [ctx] after command [c]: [held] tells whether it is bound
    to the scope at the end of [contexts].  It is after an enter; after an
    exit it is bound to the scope that was popped; a write leaves it as it
    was. *)
Definition rebind (c : command) (held : bool) : bool :=
  match c with
  | context_enter _ | open_enter _ _ _ _ => true
  | context_exit | open_exit _ => false
  | write_cmd _ _ => held
  end.

(** When [replay] returns, its variables are cleared, [contexts] before
    [ctx].  The list gives up its items from the end, and each scope that
    nothing else holds is reclaimed at once; the scope that [ctx] still
    holds is reclaimed after them. *)
Definition reclaim (held : bool) (contexts : list (entry H)) (s : S) : S :=
  let order := match contexts with
               | e :: rest => if held then rest ++ [e] else contexts
               | [] => []
               end in
  fold_left (λ s e, reclaim_entry e s) order s.

(** The body of [replay] with its variables [contexts] and [ctx]: the
    loop, and what leaving the function does to the target.  When a
    command raises, the result is the target at the moment the exception
    leaves [replay]: the scopes on [contexts] are still held then, by the
    frame that the traceback keeps, and are reclaimed when the caller lets
    go of it.  One scope is not held: the context that [open_exit] popped
    before it failed to unpack it, unless [ctx] is still bound to it; it
    is reclaimed at once. *)
Fixpoint replay_body (ms : list command) (s : S) (contexts : list (entry H))
    (held : bool) : S * outcome unit :=
  match ms with
  | [] => (reclaim held contexts s, Returns tt)
  | c :: ms =>
      match replay_cmd c s contexts with
      | (s, contexts', Returns _) => replay_body ms s contexts' (rebind c held)
      | (s, _, Raises e) =>
          (match c, contexts with
           | open_exit _, entry_ctx :: _ =>
               if held then s else reclaim_entry entry_ctx s
           | _, _ => s
           end, Raises e)
      end
  end.

(** [self.replay(log)] *)
Definition replay (self : RecordLog) (s : S) : S * outcome unit :=
  replay_body (_messages self) s [] false.
End replay.

(** ** Sessions *)

(** A client of the Log contract: the calls it makes on a log [log], in
    order.  [FWrite] writes into the file object of the innermost enclosing
    [Open]; [Raise] raises in the client, and nothing in a session catches. *)
Inductive session :=
| Done
| Pushcontext (title : string) (k : session)
| Popcontext (k : session)
| Write (text : string) (lvl : level) (k : session)
| Context (text : string) (body k : session)
| Open (filename mode : string) (lvl : level) (id : ident) (body k : session)
| FWrite (data : string) (k : session)
| Raise (e : exn).

Section run.
Context {S H : Type} (log : Log S H).

(** Run a session on [log].  [f] is the file object in scope, of type
    [F]: [H] inside an [Open], [unit] outside of any.  A [Context] is the
    [with] statement over [log.context(text)]; the object it threads is
    the file in scope, which its body may write to.  An [Open] is the
    [with] statement over [log.open(...)], whose body writes to the file
    that the scope yields. *)
Fixpoint run {F : Type} (fw : string → F → F) (p : session) (f : F) (s : S)
  : S * F * outcome unit :=
  match p with
  | Done => (s, f, Returns tt)
  | Pushcontext title k => run fw k f (pushcontext log title s)
  | Popcontext k => run fw k f (popcontext log s)
  | Write text lvl k => run fw k f (write log text lvl s)
  | Context text body k =>
      match with_stmt (fun s => (fst (context__enter__ log text s), f))
              (fun _ => context__exit__ log tt)
              (run fw body) s with
      | (s, f, Returns _) => run fw k f s
      | (s, f, Raises e) => (s, f, Raises e)
      end
  | Open filename mode lvl id body k =>
      match with_stmt (open__enter__ log filename mode lvl id)
              (open__exit__ log)
              (run (file_write log) body) s with
      | (s, _, Returns _) => run fw k f s
      | (s, _, Raises e) => (s, f, Raises e)
      end
  | FWrite data k => run fw k (fw data f) s
  | Raise e => (s, f, Raises e)
  end.

Definition run_session (p : session) (s : S) : S * outcome unit :=
  let '(s, _, r) := run (fun _ (u : unit) => u) p tt s in (s, r).
End run.

(** ** abc.Closing and abc.ClosingGenerator *)

(** What [close] returns: [True], or [None] by falling off its end. *)
Inductive pyret :=
| PyTrue
| PyNone.

Definition bool_of (r : pyret) : bool :=
  match r with
  | PyTrue => true
  | PyNone => false
  end.

(** [Closing]: the subclass defines [close]; [__enter__], [__exit__] and
    [__del__] are inherited.  [W] is the state outside the object that
    closing it may change. *)
Class Closing (W T : Type) := {
  close : T → W → W * T * pyret;
}.

Section Closing.
Context {W T : Type} `{!Closing W T}.

Definition __enter__ (self : T) : T := self.

Definition __exit__ (self : T) (w : W) : W * T :=
  let '(w, self, _) := close self w in (w, self).

(** The boolean tells whether the [ResourceWarning] was issued. *)
Definition __del__ (self : T) (w : W) : W * T * bool :=
  let '(w, self, r) := close self w in
  (w, self, bool_of r).
End Closing.

(** The answer of a generator to [next]. *)
Inductive step (A : Type) :=
| Yield (val : A)
| StopIteration
| Throw (e : exn).
Arguments Yield {A} val.
Arguments StopIteration {A}.
Arguments Throw {A} e.

(** A Python generator object with states [G]: [next(gen)] and
    [gen.close()]. *)
Record generator (W G A : Type) := {
  gen_next : G → W → W * G * step A;
  gen_close : G → W → W * G;
}.
Arguments gen_next {W G A} g _ _.
Arguments gen_close {W G A} g _ _.

Record ClosingGenerator (G : Type) := {
  _gen : option G;
}.
Arguments _gen {G} c.

Section ClosingGenerator.
Context {W G A : Type} (gen : generator W G A).

Definition ClosingGenerator__init__ (g : G) : ClosingGenerator G :=
  {| _gen := Some g |}.

(** [ClosingGenerator.compose(f)]: calling the result calls the generator
    function [f] and wraps the generator it returns. *)
Definition compose {X : Type} (f : X → G) (x : X) : ClosingGenerator G :=
  ClosingGenerator__init__ (f x).

Definition __next__ (self : ClosingGenerator G) (w : W)
  : W * ClosingGenerator G * step A :=
  match _gen self with
  | None => (w, self, StopIteration)
  | Some g =>
      match gen_next gen g w with
      | (w, g, StopIteration) => (w, {| _gen := None |}, StopIteration)
      | (w, g, r) => (w, {| _gen := Some g |}, r)
      end
  end.

Definition ClosingGenerator_close (self : ClosingGenerator G) (w : W)
  : W * ClosingGenerator G * pyret :=
  match _gen self with
  | Some g =>
      let '(w, _) := gen_close gen g w in
      (w, {| _gen := None |}, PyTrue)
  | None => (w, self, PyNone)
  end.

Definition ClosingGenerator_Closing : Closing W (ClosingGenerator G) :=
  {| close := ClosingGenerator_close |}.

(** [bool(self._gen)] *)
Definition is_open (self : ClosingGenerator G) : bool :=
  match _gen self with
  | Some _ => true
  | None => false
  end.

(** A consumer that calls [next] [n] times; the answers in order. *)
Fixpoint pull (n : nat) (self : ClosingGenerator G) (w : W)
  : W * ClosingGenerator G * list (step A) :=
  match n with
  | 0 => (w, self, [])
  | S n =>
      let '(w, self, r) := __next__ self w in
      let '(w, self, rs) := pull n self w in
      (w, self, r :: rs)
  end.
End ClosingGenerator.

(** ** Log.iter *)

(** [str(i)] and [str.join]. *)
Definition str_nat (i : nat) : string := pretty i.

Fixpoint join (sep : string) (items : list string) : string :=
  match items with
  | [] => ""
  | [x] => x
  | x :: items => x +:+ sep +:+ join sep items
  end.

(** ['{:.0f}'.format(100 * (i+.5) / length)] for a positive [length]: the
    quotient [(100 i + 50) / length] rounded to the nearest integer, a tie
    going to the even one.  The float quotient of the source rounds the same
    way as the exact one as long as [100 i + 50 < 2^52]. *)
Definition percent (i length : nat) : N :=
  let a := (100 * N.of_nat i + 50)%N in
  let l := N.of_nat length in
  let q := (a / l)%N in
  let r := (a mod l)%N in
  if (2 * r <? l)%N then q
  else if (l <? 2 * r)%N then (q + 1)%N
  else if N.even q then q else (q + 1)%N.

(** The title of the context of element [i]; [if length:] is false for
    [None] and for [0]. *)
Definition iter_text (title : string) (i : nat) (length : option nat)
  : string :=
  let text := title +:+ " " +:+ str_nat i in
  match length with
  | Some (S _ as l) => text +:+ " (" +:+ pretty (percent i l) +:+ "%)"
  | _ => text
  end.

(** An iterable: [len(iterable)] where it has one, and the iterator that
    [iter(iterable)] returns, with states [I]. *)
Record iterable (I : Type) := {
  iterable__len__ : option nat;
  iterable__iter__ : I;
}.
Arguments iterable__len__ {I} i.
Arguments iterable__iter__ {I} i.

(** The generator of [Log.iter]: not started, suspended at its [yield]
    (inside [try], the context of element [i] pushed), or finished. *)
Inductive iter_gen (I : Type) :=
| iter_created (title : string) (it : iterable I) (length : option nat)
| iter_suspended (title : string) (iterator : I) (i : nat)
    (length : option nat)
| iter_finished.
Arguments iter_created {I} title it length.
Arguments iter_suspended {I} title iterator i length.
Arguments iter_finished {I}.

Section iter.
Context {S H : Type} (self : Log S H).
Context {I A : Type} (next : I → option (A * I)).

(** One turn of [while True], from its top to the [yield] or the
    [return]. *)
Definition iter_loop (title : string) (iterator : I) (i : nat)
    (length : option nat) (s : S) : S * iter_gen I * step A :=
  let text := iter_text title i length in
  let s := pushcontext self text s in
  match next iterator with
  | None => (popcontext self s, iter_finished, StopIteration)
  | Some (val, iterator) =>
      (s, iter_suspended title iterator i length, Yield val)
  end.

Definition iter_next (g : iter_gen I) (s : S) : S * iter_gen I * step A :=
  match g with
  | iter_created title it length =>
      let length := match length with
                    | None => iterable__len__ it
                    | Some _ => length
                    end in
      iter_loop title (iterable__iter__ it) 0 length s
  | iter_suspended title iterator i length =>
      let s := popcontext self s in
      iter_loop title iterator (i + 1) length s
  | iter_finished => (s, iter_finished, StopIteration)
  end.

(** [GeneratorExit] at the [yield] runs [finally]; a generator that was
    never started, or has finished, has nothing to run. *)
Definition iter_close (g : iter_gen I) (s : S) : S * iter_gen I :=
  match g with
  | iter_suspended _ _ _ _ => (popcontext self s, iter_finished)
  | _ => (s, iter_finished)
  end.

Definition iter_generator : generator S (iter_gen I) A :=
  {| gen_next := iter_next; gen_close := iter_close |}.

(** [self.iter(title, iterable, length)], through
    [ClosingGenerator.compose]. *)
Definition iter (title : string) (it : iterable I) (length : option nat)
  : ClosingGenerator (iter_gen I) :=
  compose (λ '(title, it, length), iter_created title it length)
    (title, it, length).
End iter.

(** ** The leveled methods *)

(** The positional arguments of a print method, and [str] of them. *)
Inductive object :=
| PyStr (s : string)
| PyInt (z : Z)
| PyBool (b : bool)
| PyNoneObj.

Definition str (o : object) : string :=
  match o with
  | PyStr s => s
  | PyInt z => pretty z
  | PyBool true => "True"
  | PyBool false => "False"
  | PyNoneObj => "None"
  end.

Definition DEBUG : level := 0.
Definition INFO : level := 1.
Definition USER : level := 2.
Definition WARNING : level := 3.
Definition ERROR : level := 4.

Section factory.
Context {S H : Type} (self : Log S H).

(** [print(self, *args, sep=' ')]; [sep = None] stands for the default. *)
Definition print (lvl : level) (args : list object) (sep : option string)
    (s : S) : S :=
  write self (join (default " " sep) (map str args)) lvl s.

(** [file(self, name, mode, *, id=None)]: the scope of [self.open]. *)
Definition file (lvl : level) (name mode : string) (id : ident)
  : (S → S * H) * (H → option exn → S → S * outcome bool) :=
  (open__enter__ self name mode lvl id, open__exit__ self).

Definition _factory (lvl : level) :=
  (print lvl, file lvl,
   ["debug"; "info"; "user"; "warning"; "error"] !! lvl).

Definition debug := (_factory 0).1.1.
Definition info := (_factory 1).1.1.
Definition user := (_factory 2).1.1.
Definition warning := (_factory 3).1.1.
Definition error := (_factory 4).1.1.
Definition debugfile := (_factory 0).1.2.
Definition infofile := (_factory 1).1.2.
Definition userfile := (_factory 2).1.2.
Definition warningfile := (_factory 3).1.2.
Definition errorfile := (_factory 4).1.2.
End factory.

(** ** Calls on a log, taken as data *)

(** The calls of the contract that return nothing, and their effect on any
    backend; used to state which calls a derived method makes. *)
Inductive call :=
| call_pushcontext (title : string)
| call_popcontext
| call_write (text : string) (lvl : level).

Section calls.
Context {S H : Type} (log : Log S H).

Definition do_call (s : S) (c : call) : S :=
  match c with
  | call_pushcontext title => pushcontext log title s
  | call_popcontext => popcontext log s
  | call_write text lvl => write log text lvl s
  end.

Definition do_calls (cs : list call) (s : S) : S := fold_left do_call cs s.
End calls.

(** The push and pop around element [i] of [Log.iter]. *)
Definition iter_calls (title : string) (length : option nat) (i : nat)
  : list call :=
  [call_pushcontext (iter_text title i length); call_popcontext].

(** An iterator hands out the elements [xs] and is then in state [it']. *)
Inductive hands_out {I A : Type} (next : I → option (A * I))
  : I → list A → I → Prop :=
| hands_out_nil it : hands_out next it [] it
| hands_out_cons it x it1 xs it' :
    next it = Some (x, it1) →
    hands_out next it1 xs it' →
    hands_out next it (x :: xs) it'.

(** [iter(xs)] for a list [xs]. *)
Definition list_next {A : Type} (xs : list A) : option (A * list A) :=
  match xs with
  | [] => None
  | x :: xs => Some (x, xs)
  end.

(** ** An in-memory backend that captures what is done to it

    The backend against which a replay is compared with direct use. *)

Inductive event :=
| ev_pushcontext (title : string)
| ev_popcontext
| ev_write (text : string) (lvl : level)
| ev_open (filename mode : string) (lvl : level) (id : ident)
| ev_close (content : string).

(** The log is the list of events so far; a file is the bytes written to
    it, which its scope reports when it closes. *)
Global Instance TraceLog : Log (list event) string := {|
  pushcontext title s := s ++ [ev_pushcontext title];
  popcontext s := s ++ [ev_popcontext];
  write text lvl s := s ++ [ev_write text lvl];
  open__enter__ filename mode lvl id s :=
    (s ++ [ev_open filename mode lvl id], "");
  open__exit__ content _ s := (s ++ [ev_close content], Returns false);
  file_write data content := content +:+ data;
|}.

(** What replaying a command shows on [TraceLog]. *)
Definition ev_of (c : command) : event :=
  match c with
  | context_enter title => ev_pushcontext title
  | context_exit => ev_popcontext
  | open_enter filename mode lvl id => ev_open filename mode lvl id
  | open_exit data => ev_close (default "" data)
  | write_cmd text lvl => ev_write text lvl
  end.

(** *** Comparing a replayed trace with a direct one *)

(** A trace with some empty contexts (a push directly followed by a pop)
    taken out. *)
Inductive erases : list event → list event → Prop :=
| erases_refl tr : erases tr tr
| erases_step a title b tr :
    erases (a ++ b) tr →
    erases (a ++ ev_pushcontext title :: ev_popcontext :: b) tr.

Fixpoint no_empty_context (tr : list event) : bool :=
  match tr with
  | [] => true
  | ev_pushcontext _ :: (ev_popcontext :: _) => false
  | _ :: tr => no_empty_context tr
  end.

(** The direct trace with the bytes of every file whose id was stored by an
    earlier completed file replaced by the stored bytes.  [seen] is the
    cache so far and [opens] the ids of the files that are open, each with
    what the cache held for it when it was opened. *)
Fixpoint deliver_cached (tr : list event) (seen : gmap ident string)
    (opens : list (ident * option string)) : list event :=
  match tr with
  | [] => []
  | ev_open filename mode lvl id :: tr =>
      ev_open filename mode lvl id
        :: deliver_cached tr seen ((id, seen !! id) :: opens)
  | ev_close content :: tr =>
      match opens with
      | (_, Some data) :: opens =>
          ev_close data :: deliver_cached tr seen opens
      | (id, None) :: opens =>
          ev_close content
            :: deliver_cached tr
                 (if truthy id then <[id := content]> seen else seen) opens
      | [] => ev_close content :: deliver_cached tr seen []
      end
  | e :: tr => e :: deliver_cached tr seen opens
  end.

(** *** Well-formed sessions *)

Fixpoint no_raise (p : session) : bool :=
  match p with
  | Done => true
  | Pushcontext _ k | Popcontext k | Write _ _ k | FWrite _ k => no_raise k
  | Context _ body k | Open _ _ _ _ body k => no_raise body && no_raise k
  | Raise _ => false
  end.

(** [balanced d p = Some d']: started with [d] contexts pushed in the
    current file scope, [p] never pops more than were pushed there, closes
    every file scope at the depth it opened it, and ends with [d']. *)
Fixpoint balanced (d : nat) (p : session) : option nat :=
  match p with
  | Done => Some d
  | Pushcontext _ k => balanced (d + 1) k
  | Popcontext k =>
      match d with
      | 0 => None
      | S d => balanced d k
      end
  | Write _ _ k | FWrite _ k => balanced d k
  | Context _ body k =>
      match balanced (d + 1) body with
      | Some (S d) => balanced d k
      | _ => None
      end
  | Open _ _ _ _ body k =>
      match balanced 0 body with
      | Some 0 => balanced d k
      | _ => None
      end
  | Raise _ => Some d
  end.

Definition well_nested (p : session) : bool :=
  match balanced 0 p with
  | Some _ => true
  | None => false
  end.

(** ** Auxiliary definitions for the proofs *)


(** What appending command [c] by the recording methods does to the
    command list: [popcontext] for [context_exit], [append] otherwise. *)
Definition push_cmd (ms : list command) (c : command) : list command :=
  match c with
  | context_exit =>
      if Rec.last_is_context_enter ms then removelast ms else ms ++ [c]
  | _ => ms ++ [c]
  end.

Definition collapse_step (tr : list event) (e : event) : list event :=
  match e, last tr with
  | ev_popcontext, Some (ev_pushcontext _) => removelast tr
  | _, _ => tr ++ [e]
  end.

(** The commands that a session without [Raise] issues on a [RecordLog]
    whose cache is [seen], before any collapsing, with the file in scope
    and the cache afterwards. *)
Fixpoint transcript {F : Type} (fw : string → F → F) (p : session) (f : F)
    (seen : gmap ident string) : list command * F * gmap ident string :=
  match p with
  | Done | Raise _ => ([], f, seen)
  | Pushcontext title k =>
      let '(cs, f, seen) := transcript fw k f seen in
      (context_enter title :: cs, f, seen)
  | Popcontext k =>
      let '(cs, f, seen) := transcript fw k f seen in
      (context_exit :: cs, f, seen)
  | Write text lvl k =>
      let '(cs, f, seen) := transcript fw k f seen in
      (write_cmd text lvl :: cs, f, seen)
  | Context text body k =>
      let '(cb, f, seen) := transcript fw body f seen in
      let '(ck, f, seen) := transcript fw k f seen in
      (context_enter text :: cb ++ context_exit :: ck, f, seen)
  | Open filename mode lvl id body k =>
      let fr := {| o_id := id; o_data := seen !! id;
                   o_f := match seen !! id with
                          | Some _ => devnull
                          | None => tempfile ""
                          end |} in
      let '(cb, fr, seen) := transcript Rec.file_write body fr seen in
      let data := match o_data fr with
                  | Some data => data
                  | None => io_read (o_f fr)
                  end in
      let seen := match o_data fr with
                  | Some _ => seen
                  | None => if truthy id then <[id := data]> seen else seen
                  end in
      let '(ck, f, seen) := transcript fw k f seen in
      (open_enter filename mode lvl id :: cb ++ open_exit (Some data) :: ck,
       f, seen)
  | FWrite data k => transcript fw k (fw data f) seen
  end.

(** The [contexts] list of [replay] by kinds ([true] for a file scope):
    where replaying [ms] leaves it, if it does not fail. *)
Fixpoint nest (ms : list command) (ks : list bool) : option (list bool) :=
  match ms with
  | [] => Some ks
  | c :: ms =>
      match c, ks with
      | context_enter _, _ => nest ms (false :: ks)
      | context_exit, false :: ks => nest ms ks
      | open_enter _ _ _ _, _ => nest ms (true :: ks)
      | open_exit _, true :: ks => nest ms ks
      | write_cmd _ _, _ => nest ms ks
      | _, _ => None
      end
  end.

Definition entries (ks : list bool) : list (entry string) :=
  map (λ k : bool, if k then entry_open "" else entry_ctx) ks.

(** The file of a [RecordLog] scope against the file of the same scope on
    the capturing backend: a buffer holds the same bytes. *)
Definition same_bytes (fr : open_frame) (content : string) : Prop :=
  o_data fr = None → o_f fr = tempfile content.

(** The events of a trace with the bytes of the files left out. *)
Definition shape (e : event) : event :=
  match e with
  | ev_close _ => ev_close ""
  | _ => e
  end.

(** ** Further notions for the properties of the recording *)

(** A command list with no [context_enter] directly followed by a
    [context_exit]. *)
Fixpoint no_empty_pair (ms : list command) : bool :=
  match ms with
  | [] => true
  | context_enter _ :: (context_exit :: _) => false
  | _ :: ms => no_empty_pair ms
  end.

(** The events that carry a message or a file, as opposed to the pushes and
    pops of contexts. *)
Definition payload (e : event) : bool :=
  match e with
  | ev_pushcontext _ | ev_popcontext => false
  | _ => true
  end.

(** The call on the target that replaying a command comes to, for the
    commands that are not about files. *)
Definition call_of (c : command) : option call :=
  match c with
  | context_enter title => Some (call_pushcontext title)
  | context_exit => Some call_popcontext
  | write_cmd text lvl => Some (call_write text lvl)
  | open_enter _ _ _ _ | open_exit _ => None
  end.

(** Sessions that enter contexts through [with log.context(...)] only,
    never by a bare [pushcontext] or [popcontext]. *)
Fixpoint scoped (p : session) : bool :=
  match p with
  | Done | Raise _ => true
  | Pushcontext _ _ | Popcontext _ => false
  | Write _ _ k | FWrite _ k => scoped k
  | Context _ body k | Open _ _ _ _ body k => scoped body && scoped k
  end.

(** The contexts that are open after a session that only pushes and pops
    contexts, innermost first, given those open before it; [None] when the
    session does anything else, or pops a context that is not there. *)
Fixpoint open_contexts (p : session) (stack : list string)
  : option (list string) :=
  match p with
  | Done => Some stack
  | Pushcontext title k => open_contexts k (title :: stack)
  | Popcontext k =>
      match stack with
      | [] => None
      | _ :: stack => open_contexts k stack
      end
  | Context title body k =>
      match open_contexts body (title :: stack) with
      | Some (_ :: stack) => open_contexts k stack
      | _ => None
      end
  | _ => None
  end.

(** What a consumer may do with a [ClosingGenerator]: ask for the next
    value, or close it. *)
Inductive action :=
| act_next
| act_close.

Definition is_next (a : action) : bool :=
  match a with
  | act_next => true
  | act_close => false
  end.

Section drive.
Context {W G A : Type} (gen : generator W G A).

(** A consumer that performs the actions in order and drops the values. *)
Fixpoint drive (acts : list action) (self : ClosingGenerator G) (w : W)
  : W * ClosingGenerator G :=
  match acts with
  | [] => (w, self)
  | act_next :: acts =>
      let '(w, self, _) := __next__ gen self w in drive acts self w
  | act_close :: acts =>
      let '(w, self, _) := ClosingGenerator_close gen self w in
      drive acts self w
  end.
End drive.

(** The states that a consumer of [log.iter(title, it, length)], started on
    the log state [s], can bring about with at most [n] calls of [next]:
    not started; holding element [i], its context pushed after the
    completed contexts of the elements before it; or closed, after [m]
    completed contexts. *)
Definition iter_reachable {S H : Type} (log : Log S H) {I : Type}
    (title : string) (it : iterable I) (length : option nat) (s : S)
    (n : nat) (self : ClosingGenerator (iter_gen I)) (st : S) : Prop :=
  let len := match length with
             | None => iterable__len__ it
             | Some _ => length
             end in
  (self = iter title it length ∧ st = s) ∨
  (∃ iterator i,
     self = {| _gen := Some (iter_suspended title iterator i len) |} ∧
     (i < n)%nat ∧
     st = do_calls log
            (flat_map (iter_calls title len) (seq 0 i) ++
             [call_pushcontext (iter_text title i len)]) s) ∨
  (self = {| _gen := None |} ∧
   ∃ m, (m ≤ n)%nat ∧
        st = do_calls log (flat_map (iter_calls title len) (seq 0 m)) s).


(** * Properties *)

(** ** RecordLog.popcontext *)

Lemma last_is_context_enter_snoc ms c :
  Rec.last_is_context_enter (ms ++ [c]) =
  match c with context_enter _ => true | _ => false end.
Proof. unfold Rec.last_is_context_enter. by rewrite last_snoc. Qed.

Lemma popcontext_snoc ms c seen :
  Rec.popcontext {| _messages := ms ++ [c]; _seen := seen |} =
  {| _messages := match c with
                  | context_enter _ => ms
                  | _ => ms ++ [c; context_exit]
                  end;
     _seen := seen |}.
Proof.
  unfold Rec.popcontext, Rec.append; simpl.
  rewrite last_is_context_enter_snoc.
  destruct c; simpl; rewrite ?removelast_last, <- ?app_assoc; done.
Qed.

(** C2.  [popcontext] takes the last recorded command away when it is a
    [context_enter], and appends [context_exit] after any other last
    command; it never touches the cache.  A push directly followed by a
    pop therefore gives back the recording as it was, and on a fresh
    [RecordLog] leaves no command at all. *)
Theorem popcontext_collapse :
  (∀ ms seen c,
     Rec.popcontext {| _messages := ms ++ [c]; _seen := seen |} =
     {| _messages := match c with
                     | context_enter _ => ms
                     | _ => ms ++ [c] ++ [context_exit]
                     end;
        _seen := seen |}) ∧
  (∀ self title, Rec.popcontext (Rec.pushcontext title self) = self) ∧
  _messages (Rec.popcontext (Rec.pushcontext "A" RecordLog__init__)) = [].
Proof.
  split_and!.
  - intros. apply popcontext_snoc.
  - intros [ms seen] title. unfold Rec.pushcontext, Rec.append; simpl.
    by rewrite popcontext_snoc.
  - reflexivity.
Qed.

(** C9.  [popcontext] is a total function of the recording.  On an empty
    command list, and on one whose last command is not a [context_enter],
    it appends a bare [context_exit]; so [n] pops on a fresh [RecordLog],
    with no push before them, are recorded as [n] [context_exit]s. *)
Theorem popcontext_total :
  (∀ self,
     (_messages self = [] ∨
      ∃ ms c, _messages self = ms ++ [c] ∧ ∀ title, c ≠ context_enter title) →
     Rec.popcontext self =
     {| _messages := _messages self ++ [context_exit];
        _seen := _seen self |}) ∧
  (∀ n, Nat.iter n Rec.popcontext RecordLog__init__ =
        {| _messages := replicate n context_exit; _seen := ∅ |}).
Proof.
  split.
  - intros [ms seen]; simpl. intros [-> | (ms' & c & -> & Hc)]; [done|].
    rewrite popcontext_snoc, <- app_assoc; simpl.
    destruct c; try done. by destruct (Hc title).
  - induction n as [|n IH]; [done|].
    rewrite Nat.iter_succ, IH. destruct n as [|n]; [done|].
    rewrite (replicate_S_end (S n)), (replicate_S_end n), popcontext_snoc.
    by rewrite <- app_assoc.
Qed.

Lemma popcontext_total_witness :
  Rec.popcontext
    {| _messages := [write_cmd "m" 1]; _seen := ∅ |} =
  {| _messages := [write_cmd "m" 1; context_exit]; _seen := ∅ |}.
Proof.
  apply (proj1 popcontext_total
           {| _messages := [write_cmd "m" 1]; _seen := ∅ |}).
  right. exists [], (write_cmd "m" 1). split; [reflexivity|].
  intros title Heq. discriminate Heq.
Defined.

(** ** The leveled methods *)

(** C5.  Each of [debug], [info], [user], [warning] and [error] joins
    [str] of its arguments with the separator, a single space by default,
    and calls [write] once with the result and its own level 0..4. *)
Theorem print_methods {S H : Type} (log : Log S H)
    (args : list object) (sep : option string) (s : S) :
  debug log args sep s =
    write log (join (default " " sep) (map str args)) 0 s ∧
  info log args sep s =
    write log (join (default " " sep) (map str args)) 1 s ∧
  user log args sep s =
    write log (join (default " " sep) (map str args)) 2 s ∧
  warning log args sep s =
    write log (join (default " " sep) (map str args)) 3 s ∧
  error log args sep s =
    write log (join (default " " sep) (map str args)) 4 s ∧
  warning log [PyStr "a"; PyStr "b"] None s = write log "a b" WARNING s ∧
  warning log [PyStr "a"; PyStr "b"] (Some "-") s = write log "a-b" WARNING s ∧
  ((_factory log 0).2, (_factory log 1).2, (_factory log 2).2,
   (_factory log 3).2, (_factory log 4).2) =
    (Some "debug", Some "info", Some "user", Some "warning", Some "error").
Proof. split_and!; reflexivity. Qed.

(** ** Log.context *)

(** C6.  [with log.context(text): body] calls [pushcontext(text)], runs
    the body, and calls [popcontext()] once on what the body left, whether
    the body returned or raised; the outcome of the statement is the
    outcome of the body, so an exception goes on to the caller as it is.
    The [__exit__] of the scope pops and never asks for the exception to be
    swallowed. *)
Theorem context_pops_once {S H : Type} (log : Log S H) (text : string)
    (body : S → S * outcome unit) (s : S) :
  context log text body s =
    (popcontext log (body (pushcontext log text s)).1,
     (body (pushcontext log text s)).2) ∧
  (∀ e s', body (pushcontext log text s) = (s', Raises e) →
           context log text body s = (popcontext log s', Raises e)) ∧
  (∀ value s', context__exit__ log tt value s' =
               (popcontext log s', Returns false)).
Proof.
  assert (Hexit : ∀ value s', context__exit__ log tt value s' =
                              (popcontext log s', Returns false)).
  { intros [e|] s'; unfold context__exit__, context_resume; simpl; [|done].
    by rewrite decide_True. }
  assert (Hctx : context log text body s =
    (popcontext log (body (pushcontext log text s)).1,
     (body (pushcontext log text s)).2)).
  { unfold context, with_stmt, context__enter__.
    destruct (body (pushcontext log text s)) as [s' [[]|e]];
      by rewrite Hexit. }
  split_and!; [done| |done].
  intros e s' Hb. by rewrite Hctx, Hb.
Qed.

Lemma context_pops_once_witness :
  let body := λ s : list event, (s ++ [ev_write "m" 1], Raises (Exn "E")) in
  body (pushcontext TraceLog "c" []) =
    ([ev_pushcontext "c"; ev_write "m" 1], Raises (Exn "E")) ∧
  context TraceLog "c" body [] =
    (popcontext TraceLog [ev_pushcontext "c"; ev_write "m" 1],
     Raises (Exn "E")).
Proof.
  intros body. split; [reflexivity|].
  apply (proj1 (proj2 (context_pops_once TraceLog "c" body []))).
  reflexivity.
Defined.

(** ** ClosingGenerator *)

(** C8.  [close] returns a true value exactly when [_gen] was still set,
    and leaves it cleared.  On a generator whose [_gen] is cleared, [close]
    returns [None] and changes nothing, and [__del__] issues no warning; so
    a second [close] is a no-op.  When [__next__] signals the end of the
    sequence, [_gen] is cleared. *)
Theorem close_idempotent {W G A : Type} (gen : generator W G A) :
  (∀ self w,
     bool_of (ClosingGenerator_close gen self w).2 = is_open self ∧
     is_open (ClosingGenerator_close gen self w).1.2 = false) ∧
  (∀ self w,
     is_open self = false →
     ClosingGenerator_close gen self w = (w, self, PyNone) ∧
     @__del__ _ _ (ClosingGenerator_Closing gen) self w = (w, self, false)) ∧
  (∀ self w,
     (__next__ gen self w).2 = StopIteration →
     is_open (__next__ gen self w).1.2 = false).
Proof.
  split_and!.
  - intros [[g|]] w; unfold ClosingGenerator_close, is_open; simpl; [|done].
    by destruct (gen_close gen g w).
  - intros [[g|]] w; unfold is_open; simpl; [discriminate|done].
  - intros [[g|]] w; unfold __next__, is_open; simpl; [|done].
    by destruct (gen_next gen g w) as [[w' g'] [v| |e]].
Qed.

Lemma close_idempotent_witness :
  let gen := iter_generator TraceLog (list_next (A := nat)) in
  let it := {| iterable__len__ := Some 0; iterable__iter__ := [] |} in
  let self := (pull gen 1 (iter "item" it None) []).1.2 in
  is_open self = false ∧
  ClosingGenerator_close gen self [] = ([], self, PyNone).
Proof.
  intros gen it self. split; [reflexivity|].
  apply (proj1 (proj2 (close_idempotent gen)) self []). reflexivity.
Defined.

(** ** RecordLog.open *)

(** C7.  [open] appends [open_enter] before the body runs, and on the way
    out, whether the body returned or raised, appends one [open_exit] to
    what the body recorded and hands the body's outcome on.  The recorded
    data is the cached bytes when the id was cached, the buffer read back
    when the body returned, and [None] when neither took place: the id was
    not cached and the body raised.  Replaying [open_exit(None)] passes the
    target's file object to [__exit__] as it is, with no [write]. *)
Theorem open_records_enter_exit (filename mode : string) (lvl : level)
    (id : ident) (self : RecordLog)
    (body : io_file → RecordLog → RecordLog * io_file * outcome unit) :
  let '(s1, fr) := Rec.open__enter__ filename mode lvl id self in
  let '(s2, f2, r) := body (o_f fr) s1 in
  let data := match _seen self !! id, r with
              | Some cached, _ => Some cached
              | None, Returns _ => Some (io_read f2)
              | None, Raises _ => None
              end in
  s1 = Rec.append (open_enter filename mode lvl id) self ∧
  _messages (Rec.open filename mode lvl id body self).1 =
    _messages s2 ++ [open_exit data] ∧
  (Rec.open filename mode lvl id body self).2 = r ∧
  (∀ (S H : Type) (log : Log S H) (s : S) (f : H) contexts,
     replay_cmd log (open_exit None) s (entry_open f :: contexts) =
     match open__exit__ log f None s with
     | (s, Returns _) => (s, contexts, Returns tt)
     | (s, Raises e) => (s, contexts, Raises e)
     end) ∧
  (∀ s, replay_loop TraceLog [open_enter filename mode lvl id; open_exit None]
          s [] =
        (s ++ [ev_open filename mode lvl id; ev_close ""], [], Returns tt)).
Proof.
  unfold Rec.open, with_stmt, Rec.on_file, Rec.open__enter__,
    Rec.open__exit__, Rec.open_resume.
  destruct self as [ms seen]; simpl.
  destruct (seen !! id) as [cached|] eqn:Hid; simpl;
    (destruct (body _ _) as [[s2 f2] [[]|e]] eqn:Hb; simpl;
     rewrite ?decide_True by done; simpl;
     (split_and!; [done|try done|done|done|]));
    try (by intros s; simpl; rewrite <- app_assoc).
  by destruct (truthy id).
Qed.

(** C10.  When the id is not in the cache and the body raises, [open]
    leaves the cache as the body left it, appends [open_exit(None)] and
    lets the exception through; when the body itself made no change to the
    recording, all that [open] has done is to append the pair
    [open_enter], [open_exit(None)]. *)
Theorem open_body_raises (filename mode : string) (lvl : level) (id : ident)
    (self : RecordLog)
    (body : io_file → RecordLog → RecordLog * io_file * outcome unit)
    (s2 : RecordLog) (f2 : io_file) (e : exn) :
  _seen self !! id = None →
  body (tempfile "") (Rec.append (open_enter filename mode lvl id) self) =
    (s2, f2, Raises e) →
  Rec.open filename mode lvl id body self =
    ({| _messages := _messages s2 ++ [open_exit None]; _seen := _seen s2 |},
     Raises e) ∧
  (s2 = Rec.append (open_enter filename mode lvl id) self →
   (Rec.open filename mode lvl id body self).1 =
     {| _messages :=
          _messages self ++ [open_enter filename mode lvl id; open_exit None];
        _seen := _seen self |}).
Proof.
  intros Hid Hb.
  assert (Hopen : Rec.open filename mode lvl id body self =
    ({| _messages := _messages s2 ++ [open_exit None]; _seen := _seen s2 |},
     Raises e)).
  { unfold Rec.open, with_stmt, Rec.on_file, Rec.open__enter__,
      Rec.open__exit__, Rec.open_resume.
    simpl. rewrite Hid. simpl. rewrite Hb. simpl.
    by rewrite decide_True. }
  split; [done|].
  intros ->. rewrite Hopen. simpl. by rewrite <- app_assoc.
Qed.

Lemma open_body_raises_witness :
  let body := λ (f : io_file) (s : RecordLog),
                (s, io_write "partial" f, Raises (Exn "E")) in
  Rec.open "out.txt" "w" 1 (Some "k") body RecordLog__init__ =
    ({| _messages := [open_enter "out.txt" "w" 1 (Some "k")] ++ [open_exit None];
        _seen := ∅ |}, Raises (Exn "E")).
Proof.
  intros body.
  apply (proj1 (open_body_raises "out.txt" "w" 1 (Some "k") RecordLog__init__
           body (Rec.append (open_enter "out.txt" "w" 1 (Some "k"))
                   RecordLog__init__)
           (tempfile "partial") (Exn "E") eq_refl eq_refl)).
Defined.

(** ** Running sessions *)

Lemma run_Context {S H : Type} (log : Log S H) {F : Type}
    (fw : string → F → F) text body k (f : F) (s : S) :
  run log fw (Context text body k) f s =
  let '(s2, f2, r) := run log fw body f (pushcontext log text s) in
  match r with
  | Returns _ => run log fw k f2 (popcontext log s2)
  | Raises e => (popcontext log s2, f2, Raises e)
  end.
Proof.
  simpl. unfold with_stmt, context__enter__, context__exit__, context_resume.
  simpl. destruct (run log fw body f _) as [[s2 f2] [[]|e]]; simpl; [done|].
  by rewrite decide_True.
Qed.

Lemma run_rec_Open {F : Type} (fw : string → F → F) filename mode lvl id
    body k (f : F) (self : RecordLog) :
  run RecordLog_Log fw (Open filename mode lvl id body k) f self =
  let '(s2, fr2, r) :=
    run RecordLog_Log Rec.file_write body
      (Rec.open__enter__ filename mode lvl id self).2
      (Rec.append (open_enter filename mode lvl id) self) in
  match r with
  | Returns _ => run RecordLog_Log fw k f (Rec.open_resume fr2 None s2).1
  | Raises e => ((Rec.open_resume fr2 (Some e) s2).1, f, Raises e)
  end.
Proof.
  simpl. unfold with_stmt, Rec.open__exit__.
  assert (Henter : Rec.open__enter__ filename mode lvl id self =
    (Rec.append (open_enter filename mode lvl id) self,
     (Rec.open__enter__ filename mode lvl id self).2)).
  { unfold Rec.open__enter__. simpl. by destruct (_seen self !! id). }
  rewrite Henter at 1.
  destruct (run RecordLog_Log Rec.file_write body _ _)
    as [[s2 fr2] [[]|e]]; simpl.
  - destruct (Rec.open_resume fr2 None s2) as [s3 reply] eqn:Hres.
    unfold Rec.open_resume in Hres.
    destruct (o_data fr2); simplify_eq; done.
  - by rewrite decide_True.
Qed.

(** A property of the file in scope that writing keeps is kept by a
    session. *)
Lemma run_file_inv {S H : Type} (log : Log S H) (p : session) :
  ∀ {F : Type} (fw : string → F → F) (P : F → Prop),
    (∀ data f, P f → P (fw data f)) →
    ∀ f s, P f → P (run log fw p f s).1.2.
Proof.
  induction p as [|title k IHk|k IHk|text lvl k IHk|text body IHb k IHk
                 |filename mode lvl id body IHb k IHk|data k IHk|e];
    intros F fw P Hfw f s Hf; try done; try (simpl; apply IHk; by auto).
  - rewrite run_Context.
    specialize (IHb F fw P Hfw f (pushcontext log text s) Hf).
    destruct (run log fw body f _) as [[s2 f2] [[]|e]]; simpl in *;
      [by apply IHk|done].
  - simpl. destruct (with_stmt _ _ _ _) as [[s2 fr2] [[]|e]]; simpl;
      [by apply IHk|done].
Qed.

Lemma seen_popcontext self : _seen (Rec.popcontext self) = _seen self.
Proof. unfold Rec.popcontext. by destruct (Rec.last_is_context_enter _). Qed.

Lemma enter_frame filename mode lvl id self :
  (Rec.open__enter__ filename mode lvl id self).2 =
  {| o_id := id; o_data := _seen self !! id;
     o_f := match _seen self !! id with
            | Some _ => devnull
            | None => tempfile ""
            end |}.
Proof. unfold Rec.open__enter__. simpl. by destruct (_seen self !! id). Qed.

(** The body of a file scope leaves the locals [id] and [data] of the
    frame alone, and a sink stays a sink. *)
Lemma run_frame {S H : Type} (log : Log S H) p fr s :
  let fr' := (run log Rec.file_write p fr s).1.2 in
  o_id fr' = o_id fr ∧ o_data fr' = o_data fr ∧
  (o_f fr = devnull → o_f fr' = devnull).
Proof.
  apply (run_file_inv log p Rec.file_write
           (λ fr', o_id fr' = o_id fr ∧ o_data fr' = o_data fr ∧
                   (o_f fr = devnull → o_f fr' = devnull))); [|done].
  intros data f (? & ? & Hf). split_and!; [done..|].
  intros Hd. simpl. by rewrite (Hf Hd).
Qed.

(** An entry of the seen-cache outlives whatever is recorded later. *)
Lemma seen_preserved (p : session) id data :
  ∀ {F : Type} (fw : string → F → F) (f : F) (self : RecordLog),
    _seen self !! id = Some data →
    _seen (run RecordLog_Log fw p f self).1.1 !! id = Some data.
Proof.
  induction p as [|title k IHk|k IHk|text lvl k IHk|text body IHb k IHk
                 |filename mode lvl id' body IHb k IHk|data' k IHk|e];
    intros F fw f self Hid; try done; try (simpl; by apply IHk).
  - simpl. apply IHk. by rewrite seen_popcontext.
  - rewrite run_Context.
    specialize (IHb F fw f (pushcontext RecordLog_Log text self) Hid).
    destruct (run _ fw body f _) as [[s2 f2] [[]|e]]; simpl in *.
    + apply IHk. by rewrite seen_popcontext.
    + by rewrite seen_popcontext.
  - rewrite run_rec_Open.
    pose proof (run_frame RecordLog_Log body
      (Rec.open__enter__ filename mode lvl id' self).2
      (Rec.append (open_enter filename mode lvl id') self)) as Hfr.
    specialize (IHb _ Rec.file_write
      (Rec.open__enter__ filename mode lvl id' self).2
      (Rec.append (open_enter filename mode lvl id') self) Hid).
    destruct (run _ Rec.file_write body _ _) as [[s2 fr2] [[]|e]];
      simpl in *; [|done].
    apply IHk. destruct Hfr as (Hfid & Hfdata & _).
    rewrite enter_frame in Hfid, Hfdata. simpl in *.
    unfold Rec.open_resume. rewrite Hfdata, Hfid.
    destruct (_seen self !! id') eqn:Hid'; simpl; [done|].
    destruct (truthy id'); simpl; [|done].
    rewrite lookup_insert_ne; [done|]. intros ->. congruence.
Qed.

(** ** Log.iter *)

Section iter_facts.
Context {S H : Type} (log : Log S H).
Context {I A : Type} (next : I → option (A * I)).
Context (title : string) (len : option nat).

Let gen := iter_generator log next.

(** The pop of one element's context and the push of the next one's. *)
Let turn (j : nat) : list call :=
  [call_popcontext; call_pushcontext (iter_text title j len)].

Lemma do_calls_app (cs1 cs2 : list call) (s : S) :
  do_calls log (cs1 ++ cs2) s = do_calls log cs2 (do_calls log cs1 s).
Proof. apply fold_left_app. Qed.

Lemma pull_app (n m : nat) (self : ClosingGenerator (iter_gen I)) (s : S) :
  pull gen (n + m) self s =
  let '(s1, self1, rs1) := pull gen n self s in
  let '(s2, self2, rs2) := pull gen m self1 s1 in
  (s2, self2, rs1 ++ rs2).
Proof.
  revert self s. induction n as [|n IH]; intros self s; simpl.
  - by destruct (pull gen m self s) as [[? ?] ?].
  - destruct (__next__ gen self s) as [[s1 self1] r].
    rewrite IH. destruct (pull gen n self1 s1) as [[s2 self2] rs].
    by destruct (pull gen m self2 s2) as [[? ?] ?].
Qed.

(** From the [yield] of element [i], taking the elements [xs]. *)
Lemma pull_suspended (xs : list A) (iterator it' : I) :
  hands_out next iterator xs it' →
  ∀ (i : nat) (s : S),
    pull gen (length xs)
      {| _gen := Some (iter_suspended title iterator i len) |} s =
    (do_calls log (flat_map turn (seq (Datatypes.S i) (length xs))) s,
     {| _gen := Some (iter_suspended title it' (i + length xs) len) |},
     map Yield xs).
Proof.
  induction 1 as [it|it x it1 xs it' Hnext _ IH]; intros i s.
  - simpl. by rewrite Nat.add_0_r.
  - cbn [length pull]. unfold __next__ at 1. cbn [_gen gen_next gen iter_generator].
    unfold iter_next, iter_loop. rewrite Hnext, Nat.add_1_r.
    rewrite IH. cbn [seq flat_map map]. unfold turn at 2.
    by rewrite <- Nat.add_succ_comm.
Qed.

(** Closing the context held open at the [yield] completes the pairs. *)
Lemma held_then_pop (m i : nat) (s : S) :
  popcontext log
    (do_calls log (flat_map turn (seq (Datatypes.S i) m))
       (pushcontext log (iter_text title i len) s)) =
  do_calls log (flat_map (iter_calls title len) (seq i (Datatypes.S m))) s.
Proof.
  revert i s. induction m as [|m IH]; intros i s; [done|].
  change (flat_map (iter_calls title len) (seq i (Datatypes.S (Datatypes.S m))))
    with (iter_calls title len i ++
          flat_map (iter_calls title len) (seq (Datatypes.S i) (Datatypes.S m))).
  change (flat_map turn (seq (Datatypes.S i) (Datatypes.S m)))
    with (turn (Datatypes.S i) ++
          flat_map turn (seq (Datatypes.S (Datatypes.S i)) m)).
  rewrite !do_calls_app, <- IH. reflexivity.
Qed.

End iter_facts.

(** C4, amended.  Let the iterator hand out the elements [xs].  A consumer
    that takes them one by one receives exactly [xs], and when it then
    closes the generator, the calls made on the log are, for each index
    [i] below the number of elements taken, a push of the title of [i]
    followed by its pop, the pop of one index coming before the push of
    the next, and nothing else.  When the iterator has no further element
    and the consumer asks for one, the generator pushes and pops one more
    context, titled with the index after the last element, before it
    signals the end of the sequence and clears [_gen].  The title of index
    [i] is ["{title} {i}"], followed by the rounded percentage when the
    length, given or taken from the iterable, is known and not zero. *)
Theorem iter_contexts {S H : Type} (log : Log S H) {I A : Type}
    (next : I → option (A * I)) (title : string)
    (it : iterable I) (length : option nat)
    (xs : list A) (it' : I) (s : S) :
  hands_out next (iterable__iter__ it) xs it' →
  let gen := iter_generator log next in
  let len := match length with
             | None => iterable__len__ it
             | Some _ => length
             end in
  let n := List.length xs in
  (pull gen n (iter title it length) s).2 = map Yield xs ∧
  (let '(s1, self1, _) := pull gen n (iter title it length) s in
   (ClosingGenerator_close gen self1 s1).1 =
     (do_calls log (flat_map (iter_calls title len) (seq 0 n)) s,
      {| _gen := None |})) ∧
  (next it' = None →
   pull gen (n + 1) (iter title it length) s =
     (do_calls log (flat_map (iter_calls title len) (seq 0 (n + 1))) s,
      {| _gen := None |}, map Yield xs ++ [StopIteration])) ∧
  (∀ i, iter_text title i len =
        match len with
        | Some (Datatypes.S _ as l) =>
            (title +:+ " " +:+ str_nat i) +:+
            " (" +:+ pretty (percent i l) +:+ "%)"
        | _ => title +:+ " " +:+ str_nat i
        end).
Proof.
  intros Hxs gen len n. subst gen.
  set (turn := λ j : nat,
         [call_popcontext; call_pushcontext (iter_text title j len)]).
  (* where the consumer stands after taking [xs] *)
  assert (Hpull : pull (iter_generator log next) n (iter title it length) s =
    match xs with
    | [] => (s, iter title it length, [])
    | _ :: xs' =>
        (do_calls log (flat_map turn (seq 1 (List.length xs')))
           (pushcontext log (iter_text title 0 len) s),
         {| _gen := Some (iter_suspended title it' (List.length xs') len) |},
         map Yield xs)
    end).
  { subst n. inversion Hxs as [|? x it1 xs' ? Hnext Hrest]; [done|].
    cbn [List.length pull]. unfold __next__ at 1, iter at 1.
    cbn [_gen compose ClosingGenerator__init__ gen_next iter_generator].
    unfold iter_next, iter_loop. fold len. rewrite Hnext.
    by rewrite (pull_suspended log next title len xs' it1 it' Hrest 0). }
  split_and!; [by rewrite Hpull; destruct xs| | |done].
  - rewrite Hpull. subst n. destruct xs as [|x xs']; [done|].
    unfold ClosingGenerator_close. cbn [_gen gen_close iter_generator].
    unfold iter_close. cbn [fst]. subst turn. by rewrite held_then_pop.
  - intros Hend. rewrite pull_app, Hpull. subst n.
    destruct xs as [|x xs'].
    + inversion Hxs; subst. cbn [pull]. unfold __next__, iter.
      cbn [_gen compose ClosingGenerator__init__ gen_next iter_generator].
      unfold iter_next, iter_loop. fold len. by rewrite Hend.
    + cbn [pull]. unfold __next__.
      cbn [_gen gen_next iter_generator].
      unfold iter_next, iter_loop. subst turn. rewrite Hend, held_then_pop.
      cbn [List.length]. rewrite !Nat.add_1_r.
      rewrite (seq_S (Datatypes.S (List.length xs'))), flat_map_app.
      by rewrite do_calls_app.
Qed.

(** C4 fails at the end of the sequence: [iter] over the one-element list
    [[7]] pushes and pops a second context, for an index that has no
    element, before it stops. *)
Lemma iter_trailing_context :
  let gen := iter_generator TraceLog (list_next (A := nat)) in
  let it := {| iterable__len__ := Some 1; iterable__iter__ := [7] |} in
  pull gen 2 (iter "item" it None) [] =
    ([ev_pushcontext "item 0 (50%)"; ev_popcontext;
      ev_pushcontext "item 1 (150%)"; ev_popcontext],
     {| _gen := None |}, [Yield 7; StopIteration]) ∧
  (pull gen 2 (iter "item" it None) []).1.1 ≠
    [ev_pushcontext "item 0 (50%)"; ev_popcontext].
Proof. split; [reflexivity|]. vm_compute. discriminate. Qed.

Lemma iter_contexts_witness :
  let gen := iter_generator TraceLog (list_next (A := nat)) in
  let it := {| iterable__len__ := Some 1; iterable__iter__ := [7] |} in
  hands_out list_next [7] [7] [] ∧ list_next ([] : list nat) = None ∧
  (ClosingGenerator_close gen (pull gen 1 (iter "item" it None) []).1.2
     (pull gen 1 (iter "item" it None) []).1.1).1 =
    ([ev_pushcontext "item 0 (50%)"; ev_popcontext], {| _gen := None |}) ∧
  pull gen 2 (iter "item" it None) [] =
    ([ev_pushcontext "item 0 (50%)"; ev_popcontext;
      ev_pushcontext "item 1 (150%)"; ev_popcontext],
     {| _gen := None |}, [Yield 7; StopIteration]).
Proof.
  intros gen it.
  assert (Hxs : hands_out list_next [7] [7] []).
  { apply (hands_out_cons list_next [7] 7 [] [] []); [reflexivity|].
    apply hands_out_nil. }
  split; [exact Hxs|]. split; [reflexivity|].
  pose proof (iter_contexts TraceLog list_next "item" it None [7] [] [] Hxs)
    as (_ & Hclose & Hend & _).
  split; [exact Hclose|]. apply Hend. reflexivity.
Defined.

(** ** Recording and replaying a session *)

(** *** What a recording holds *)

Lemma rec_popcontext_push_cmd self :
  Rec.popcontext self =
  {| _messages := push_cmd (_messages self) context_exit;
     _seen := _seen self |}.
Proof. unfold Rec.popcontext, push_cmd. by destruct (Rec.last_is_context_enter _). Qed.

Ltac fold_cmds :=
  cbn [fold_left]; rewrite ?fold_left_app; reflexivity.

(** A recording is its transcript, collapsed command by command. *)
Lemma record_transcript (p : session) :
  no_raise p = true →
  ∀ {F : Type} (fw : string → F → F) (f : F) (self : RecordLog),
    run RecordLog_Log fw p f self =
    let '(cs, f', seen') := transcript fw p f (_seen self) in
    ({| _messages := fold_left push_cmd cs (_messages self);
        _seen := seen' |}, f', Returns tt).
Proof.
  induction p as [|title k IHk|k IHk|text lvl k IHk|text body IHb k IHk
                 |filename mode lvl id body IHb k IHk|data k IHk|e];
    intros Hnr F fw f self; simpl in Hnr; try done.
  - by destruct self.
  - simpl. rewrite IHk by done. simpl.
    by destruct (transcript fw k f (_seen self)) as [[cs f'] seen'].
  - simpl. rewrite IHk, seen_popcontext by done.
    rewrite rec_popcontext_push_cmd. simpl.
    by destruct (transcript fw k f (_seen self)) as [[cs f'] seen'].
  - simpl. rewrite IHk by done. simpl.
    by destruct (transcript fw k f (_seen self)) as [[cs f'] seen'].
  - apply andb_prop in Hnr as [Hb Hk].
    rewrite run_Context, IHb by done. cbn [transcript].
    change (_seen (pushcontext RecordLog_Log text self)) with (_seen self).
    destruct (transcript fw body f (_seen self)) as [[cb f1] seen1].
    rewrite IHk, seen_popcontext, rec_popcontext_push_cmd by done. simpl.
    destruct (transcript fw k f1 seen1) as [[ck f2] seen2].
    fold_cmds.
  - apply andb_prop in Hnr as [Hb Hk].
    rewrite run_rec_Open, enter_frame, IHb by done. cbn [transcript].
    change (_seen (Rec.append (open_enter filename mode lvl id) self))
      with (_seen self).
    pose proof (run_frame RecordLog_Log body
      {| o_id := id; o_data := _seen self !! id;
         o_f := match _seen self !! id with
                | Some _ => devnull
                | None => tempfile ""
                end |}
      (Rec.append (open_enter filename mode lvl id) self)) as Hfr.
    rewrite IHb in Hfr by done.
    change (_seen (Rec.append (open_enter filename mode lvl id) self))
      with (_seen self) in Hfr.
    destruct (transcript Rec.file_write body _ (_seen self))
      as [[cb fr1] seen1].
    simpl in Hfr. destruct Hfr as (Hfid & Hfdata & _).
    unfold Rec.open_resume. rewrite Hfid.
    destruct (o_data fr1) as [cached|]; simpl.
    + rewrite IHk by done. simpl.
      destruct (transcript fw k f seen1) as [[ck f2] seen2].
      fold_cmds.
    + destruct (truthy id); simpl; rewrite IHk by done; simpl;
        destruct (transcript fw k f _) as [[ck f2] seen2];
        fold_cmds.
  - simpl. by rewrite IHk.
Qed.

(** *** The stack of [replay] *)

Lemma nest_app (a b : list command) (ks : list bool) :
  nest (a ++ b) ks = nest a ks ≫= nest b.
Proof.
  revert ks. induction a as [|c a IH]; intros ks; [done|].
  destruct c, ks as [|[] ks]; simpl; by rewrite ?IH.
Qed.

Lemma last_is_context_enter_inv ms :
  Rec.last_is_context_enter ms = true →
  ∃ ms0 title, ms = ms0 ++ [context_enter title].
Proof.
  destruct ms as [|c ms] using rev_ind; [done|].
  rewrite last_is_context_enter_snoc. destruct c; try done. eauto.
Qed.

(** Collapsing takes out a push with its pop, which the stack does not
    see. *)
Lemma nest_collapse (cs : list command) :
  ∀ ms ks ks',
    nest (ms ++ cs) ks = Some ks' →
    nest (fold_left push_cmd cs ms) ks = Some ks'.
Proof.
  induction cs as [|c cs IH]; intros ms ks ks' Hn; simpl.
  - by rewrite app_nil_r in Hn.
  - apply IH.
    assert (Hdef : nest ((ms ++ [c]) ++ cs) ks = Some ks')
      by by rewrite <- app_assoc.
    destruct c; try done. unfold push_cmd.
    destruct (Rec.last_is_context_enter ms) eqn:Hlast; [|done].
    apply last_is_context_enter_inv in Hlast as (ms0 & title & ->).
    rewrite removelast_last.
    rewrite <- !app_assoc, nest_app in Hn. rewrite nest_app.
    destruct (nest ms0 ks) as [ks0|]; [|done]. exact Hn.
Qed.

(** The transcript of a balanced session keeps the discipline of the
    stack. *)
Lemma nest_transcript (p : session) :
  no_raise p = true →
  ∀ (d d' : nat), balanced d p = Some d' →
  ∀ {F : Type} (fw : string → F → F) (f : F) seen ks rest,
    nest ((transcript fw p f seen).1.1 ++ rest) (replicate d false ++ ks) =
    nest rest (replicate d' false ++ ks).
Proof.
  induction p as [|title k IHk|k IHk|text lvl k IHk|text body IHb k IHk
                 |filename mode lvl id body IHb k IHk|data k IHk|e];
    intros Hnr d d' Hbal F fw f seen ks rest; simpl in Hnr, Hbal; try done.
  - by simplify_eq.
  - cbn [transcript].
    specialize (IHk Hnr _ _ Hbal F fw f seen ks rest).
    destruct (transcript fw k f seen) as [[cs f'] seen'].
    rewrite Nat.add_1_r in IHk. exact IHk.
  - destruct d as [|d]; [done|]. cbn [transcript].
    specialize (IHk Hnr _ _ Hbal F fw f seen ks rest).
    by destruct (transcript fw k f seen) as [[cs f'] seen'].
  - cbn [transcript].
    specialize (IHk Hnr _ _ Hbal F fw f seen ks rest).
    by destruct (transcript fw k f seen) as [[cs f'] seen'].
  - apply andb_prop in Hnr as [Hb Hk].
    destruct (balanced (d + 1) body) as [[|d1]|] eqn:Hbody; try done.
    cbn [transcript].
    specialize (IHb Hb _ _ Hbody F fw f seen ks).
    destruct (transcript fw body f seen) as [[cb f1] seen1].
    specialize (IHk Hk _ _ Hbal F fw f1 seen1 ks rest).
    destruct (transcript fw k f1 seen1) as [[ck f2] seen2].
    cbn [fst] in *. rewrite Nat.add_1_r in IHb.
    cbn [app nest]. rewrite <- app_assoc.
    change (false :: replicate d false ++ ks)
      with (replicate (Datatypes.S d) false ++ ks).
    by rewrite IHb.
  - apply andb_prop in Hnr as [Hb Hk].
    destruct (balanced 0 body) as [[|d1]|] eqn:Hbody; try done.
    cbn [transcript].
    set (fr := {| o_id := id; o_data := seen !! id; o_f := _ |}).
    specialize (IHb Hb _ _ Hbody _ Rec.file_write fr seen
                  (true :: replicate d false ++ ks)).
    destruct (transcript Rec.file_write body fr seen)
      as [[cb fr1] seen1].
    set (seen2 := match o_data fr1 with Some _ => seen1 | None => _ end).
    specialize (IHk Hk _ _ Hbal F fw f seen2 ks rest).
    destruct (transcript fw k f seen2) as [[ck f2] seen2'].
    cbn [fst replicate app] in *.
    cbn [app nest]. rewrite <- app_assoc, IHb. exact IHk.
  - cbn [transcript]. by apply IHk.
Qed.

(** *** Replay onto the capturing backend *)

Lemma replay_trace (ms : list command) :
  ∀ (s : list event) (ks ks' : list bool),
    nest ms ks = Some ks' →
    replay_loop TraceLog ms s (entries ks) =
    (s ++ map ev_of ms, entries ks', Returns tt).
Proof.
  induction ms as [|c ms IH]; intros s ks ks' Hn; simpl in Hn.
  - simplify_eq. simpl. by rewrite app_nil_r.
  - destruct c as [title| |filename mode lvl id|data|text lvl].
    + simpl. rewrite (IH _ (false :: ks) ks' Hn). by rewrite <- app_assoc.
    + destruct ks as [|[] ks]; try done.
      simpl. rewrite (IH _ ks ks' Hn). by rewrite <- app_assoc.
    + simpl. rewrite (IH _ (true :: ks) ks' Hn). by rewrite <- app_assoc.
    + destruct ks as [|[] ks]; try done.
      simpl. rewrite (IH _ ks ks' Hn). rewrite <- app_assoc.
      by destruct data.
    + simpl. rewrite (IH _ ks ks' Hn). by rewrite <- app_assoc.
Qed.

(** *** What is reclaimed when replay returns *)

(** Where the loop comes to its end, [replay] returns, having reclaimed
    the scopes left open; where the loop raises, [replay] raises. *)
Lemma replay_body_returns {S H : Type} (log : Log S H) (ms : list command) :
  ∀ (s s' : S) (contexts contexts' : list (entry H)) (held : bool),
    replay_loop log ms s contexts = (s', contexts', Returns tt) →
    replay_body log ms s contexts held =
    (reclaim log (fold_left (λ b c, rebind c b) ms held) contexts' s',
     Returns tt).
Proof.
  induction ms as [|c ms IH]; intros s s' contexts contexts' held Hloop;
    simpl in Hloop |- *.
  - by simplify_eq.
  - destruct (replay_cmd log c s contexts) as [[s1 c1] [[]|e]]; [|done].
    by apply IH.
Qed.

Lemma replay_body_raises {S H : Type} (log : Log S H) (ms : list command) :
  ∀ (s s' : S) (contexts contexts' : list (entry H)) (held : bool) e,
    replay_loop log ms s contexts = (s', contexts', Raises e) →
    (replay_body log ms s contexts held).2 = Raises e.
Proof.
  induction ms as [|c ms IH]; intros s s' contexts contexts' held e Hloop;
    simpl in Hloop |- *.
  - done.
  - destruct (replay_cmd log c s contexts) as [[s1 c1] [[]|e1]].
    + by apply (IH _ _ _ _ _ _ Hloop).
    + by simplify_eq.
Qed.

Lemma replay_of_loop {S H : Type} (log : Log S H) (self : RecordLog)
    (s s' : S) (contexts : list (entry H)) :
  replay_loop log (_messages self) s [] = (s', contexts, Returns tt) →
  replay log self s =
  (reclaim log (fold_left (λ b c, rebind c b) (_messages self) false)
     contexts s', Returns tt).
Proof. apply replay_body_returns. Qed.

Lemma reclaim_entries_ctx {S H : Type} (log : Log S H) (n : nat) :
  ∀ s : S,
    fold_left (λ s e, reclaim_entry log e s) (replicate n entry_ctx) s =
    do_calls log (replicate n call_popcontext) s.
Proof. induction n as [|n IH]; intros s; [done|]. simpl. by rewrite IH. Qed.

(** Contexts left open are popped, one [popcontext] each. *)
Lemma reclaim_contexts {S H : Type} (log : Log S H) (held : bool)
    (d : nat) (s : S) :
  reclaim log held (replicate d entry_ctx) s =
  do_calls log (replicate d call_popcontext) s.
Proof.
  destruct d as [|d]; [done|]. unfold reclaim. cbn [replicate].
  destruct held.
  - rewrite <- replicate_S_end. apply reclaim_entries_ctx.
  - apply (reclaim_entries_ctx log (Datatypes.S d)).
Qed.

Lemma entries_replicate (d : nat) :
  entries (replicate d false) = replicate d entry_ctx.
Proof. induction d as [|d IH]; [done|]. simpl. by rewrite <- IH. Qed.

Lemma trace_pops (d : nat) :
  ∀ s : list event,
    do_calls TraceLog (replicate d call_popcontext) s =
    s ++ replicate d ev_popcontext.
Proof.
  induction d as [|d IH]; intros s.
  - by rewrite app_nil_r.
  - change (do_calls TraceLog (replicate (Datatypes.S d) call_popcontext) s)
      with (do_calls TraceLog (replicate d call_popcontext)
              (s ++ [ev_popcontext])).
    rewrite IH. by rewrite <- app_assoc.
Qed.

(** *** Collapsing, seen on the events *)

Lemma ev_of_push_cmd ms c :
  map ev_of (push_cmd ms c) = collapse_step (map ev_of ms) (ev_of c).
Proof.
  destruct ms as [|c0 ms _] using rev_ind.
  - by destruct c.
  - unfold push_cmd, collapse_step.
    rewrite last_is_context_enter_snoc, !map_app. simpl.
    rewrite last_snoc, !removelast_last.
    destruct c0, c; simpl; by rewrite ?map_app.
Qed.

Lemma ev_of_collapse cs :
  ∀ ms, map ev_of (fold_left push_cmd cs ms) =
        fold_left collapse_step (map ev_of cs) (map ev_of ms).
Proof.
  induction cs as [|c cs IH]; intros ms; [done|].
  simpl. by rewrite IH, ev_of_push_cmd.
Qed.

Lemma collapse_step_cases tr e :
  (∃ tr0 title, tr = tr0 ++ [ev_pushcontext title] ∧ e = ev_popcontext ∧
                collapse_step tr e = tr0) ∨
  (collapse_step tr e = tr ++ [e] ∧
   ∀ tr0 title, ¬ (tr = tr0 ++ [ev_pushcontext title] ∧ e = ev_popcontext)).
Proof.
  destruct tr as [|e0 tr _] using rev_ind.
  - right. split; [by destruct e|]. intros tr0 title [Heq _].
    by destruct tr0.
  - unfold collapse_step. rewrite last_snoc, removelast_last.
    destruct e; try (right; split; [by destruct e0|]; by intros ?? [_ ?]).
    destruct e0; try (right; split; [done|];
      intros tr0 title0 [Heq _]; by apply app_inj_tail in Heq as [_ ?]).
    left. eauto.
Qed.

Lemma erases_collapse (tr : list event) :
  ∀ acc, erases (acc ++ tr) (fold_left collapse_step tr acc).
Proof.
  induction tr as [|e tr IH]; intros acc; simpl.
  - rewrite app_nil_r. constructor.
  - destruct (collapse_step_cases acc e)
      as [(tr0 & title & -> & -> & ->)|[-> _]].
    + rewrite <- app_assoc. simpl. by constructor.
    + specialize (IH (acc ++ [e])). by rewrite <- app_assoc in IH.
Qed.

Lemma no_empty_context_snoc tr e :
  no_empty_context tr = true →
  (∀ tr0 title, ¬ (tr = tr0 ++ [ev_pushcontext title] ∧ e = ev_popcontext)) →
  no_empty_context (tr ++ [e]) = true.
Proof.
  induction tr as [|a tr IH]; intros Hnec Hlast.
  - by destruct e.
  - destruct tr as [|b tr].
    + destruct a, e; try done. by destruct (Hlast [] title).
    + assert (Htl : no_empty_context (b :: tr) = true)
        by (destruct a, b; done).
      assert (IH' : no_empty_context ((b :: tr) ++ [e]) = true).
      { apply IH; [done|]. intros tr0 title [Heq ->].
        apply (Hlast (a :: tr0) title). by rewrite Heq. }
      destruct a, b; done.
Qed.

Lemma no_empty_context_init tr e :
  no_empty_context (tr ++ [e]) = true → no_empty_context tr = true.
Proof.
  induction tr as [|a tr IH]; intros Hnec; [done|].
  destruct tr as [|b tr]; [by destruct a|].
  assert (Htl : no_empty_context ((b :: tr) ++ [e]) = true)
    by (destruct a, b; done).
  specialize (IH Htl). destruct a, b; done.
Qed.

Lemma no_empty_context_collapse (tr : list event) :
  ∀ acc, no_empty_context acc = true →
         no_empty_context (fold_left collapse_step tr acc) = true.
Proof.
  induction tr as [|e tr IH]; intros acc Hacc; [done|].
  simpl. apply IH.
  destruct (collapse_step_cases acc e)
    as [(tr0 & title & -> & -> & ->)|[-> Hlast]].
  - by apply no_empty_context_init in Hacc.
  - by apply no_empty_context_snoc.
Qed.

(** *** Driving the capturing backend directly *)

(** The events of a session do not depend on the events before it. *)
Lemma trace_app (p : session) :
  ∀ {F : Type} (fw : string → F → F) (f : F) (s : list event),
    run TraceLog fw p f s =
    let '(d, f', r) := run TraceLog fw p f [] in (s ++ d, f', r).
Proof.
  induction p as [|title k IHk|k IHk|text lvl k IHk|text body IHb k IHk
                 |filename mode lvl id body IHb k IHk|data k IHk|e];
    intros F fw f s.
  - simpl. by rewrite app_nil_r.
  - simpl. rewrite IHk, (IHk F fw f [_]).
    destruct (run TraceLog fw k f []) as [[d f'] r]. by rewrite <- app_assoc.
  - simpl. rewrite IHk, (IHk F fw f [_]).
    destruct (run TraceLog fw k f []) as [[d f'] r]. by rewrite <- app_assoc.
  - simpl. rewrite IHk, (IHk F fw f [_]).
    destruct (run TraceLog fw k f []) as [[d f'] r]. by rewrite <- app_assoc.
  - rewrite !run_Context. simpl. rewrite IHb, (IHb F fw f [_]).
    destruct (run TraceLog fw body f []) as [[db f1] [[]|e]].
    + rewrite IHk, (IHk F fw f1 (_ ++ _)).
      destruct (run TraceLog fw k f1 []) as [[dk f2] r].
      by rewrite <- !app_assoc.
    + by rewrite <- !app_assoc.
  - simpl. unfold with_stmt. simpl.
    rewrite IHb, (IHb _ _ "" [_]).
    destruct (run TraceLog _ body "" []) as [[db buf] [[]|e]].
    + rewrite IHk, (IHk F fw f (_ ++ _)).
      destruct (run TraceLog fw k f []) as [[dk f2] r].
      by rewrite <- !app_assoc.
    + by rewrite <- !app_assoc.
  - simpl. by rewrite IHk.
  - simpl. by rewrite app_nil_r.
Qed.

Lemma trace_Open {F : Type} (fw : string → F → F) filename mode lvl id
    body k (f : F) (s : list event) :
  run TraceLog fw (Open filename mode lvl id body k) f s =
  let '(db, content, rb) := run TraceLog (file_write TraceLog) body "" [] in
  match rb with
  | Returns _ =>
      let '(dk, f2, rk) := run TraceLog fw k f [] in
      (s ++ ev_open filename mode lvl id :: db ++ ev_close content :: dk,
       f2, rk)
  | Raises e =>
      (s ++ ev_open filename mode lvl id :: db ++ [ev_close content],
       f, Raises e)
  end.
Proof.
  cbn [run]. unfold with_stmt.
  cbn [open__enter__ open__exit__ TraceLog]. rewrite (trace_app body).
  destruct (run TraceLog (file_write TraceLog) body "" [])
    as [[db content] [[]|e]].
  - rewrite (trace_app k).
    destruct (run TraceLog fw k f []) as [[dk f2] rk].
    by rewrite <- !app_assoc.
  - by rewrite <- !app_assoc.
Qed.

(** The direct trace, with the cached bytes put in, shows the transcript. *)
Lemma direct_transcript (p : session) :
  no_raise p = true →
  ∀ {F F' : Type} (fw : string → F → F) (fw' : string → F' → F')
    (R : F → F' → Prop) (f : F) (f' : F') (seen : gmap ident string),
    (∀ data a b, R a b → R (fw data a) (fw' data b)) →
    R f f' →
    let '(cs, f2, seen2) := transcript fw p f seen in
    let '(d, f2', r) := run TraceLog fw' p f' [] in
    r = Returns tt ∧ R f2 f2' ∧
    ∀ rest opens,
      deliver_cached (d ++ rest) seen opens =
      map ev_of cs ++ deliver_cached rest seen2 opens.
Proof.
  induction p as [|title k IHk|k IHk|text lvl k IHk|text body IHb k IHk
                 |filename mode lvl id body IHb k IHk|data k IHk|e];
    intros Hnr F F' fw fw' R f f' seen Hfw Hf; simpl in Hnr; try done.
  - cbn [transcript run]. rewrite trace_app.
    specialize (IHk Hnr F F' fw fw' R f f' seen Hfw Hf).
    destruct (transcript fw k f seen) as [[cs f2] seen2].
    destruct (run TraceLog fw' k f' []) as [[d f2'] r].
    destruct IHk as (-> & HR & Hd). split_and!; [done..|].
    intros rest opens. simpl. by rewrite Hd.
  - cbn [transcript run]. rewrite trace_app.
    specialize (IHk Hnr F F' fw fw' R f f' seen Hfw Hf).
    destruct (transcript fw k f seen) as [[cs f2] seen2].
    destruct (run TraceLog fw' k f' []) as [[d f2'] r].
    destruct IHk as (-> & HR & Hd). split_and!; [done..|].
    intros rest opens. simpl. by rewrite Hd.
  - cbn [transcript run]. rewrite trace_app.
    specialize (IHk Hnr F F' fw fw' R f f' seen Hfw Hf).
    destruct (transcript fw k f seen) as [[cs f2] seen2].
    destruct (run TraceLog fw' k f' []) as [[d f2'] r].
    destruct IHk as (-> & HR & Hd). split_and!; [done..|].
    intros rest opens. simpl. by rewrite Hd.
  - apply andb_prop in Hnr as [Hb Hk].
    rewrite run_Context. cbn [transcript]. rewrite trace_app.
    specialize (IHb Hb F F' fw fw' R f f' seen Hfw Hf).
    destruct (transcript fw body f seen) as [[cb f1] seen1].
    destruct (run TraceLog fw' body f' []) as [[db f1'] rb].
    destruct IHb as (-> & HR1 & Hdb).
    rewrite trace_app.
    specialize (IHk Hk F F' fw fw' R f1 f1' seen1 Hfw HR1).
    destruct (transcript fw k f1 seen1) as [[ck f2] seen2].
    destruct (run TraceLog fw' k f1' []) as [[dk f2'] rk].
    destruct IHk as (-> & HR2 & Hdk). split_and!; [done..|].
    intros rest opens. simpl. rewrite <- !app_assoc, Hdb. simpl.
    by rewrite map_app, <- app_assoc, Hdk.
  - apply andb_prop in Hnr as [Hb Hk].
    cbn [transcript]. rewrite trace_Open.
    set (fr := {| o_id := id; o_data := seen !! id; o_f := _ |}).
    set (R1 := λ (fr' : open_frame) (content : string),
                 o_data fr' = seen !! id ∧ same_bytes fr' content).
    assert (Hfw1 : ∀ data a b, R1 a b →
              R1 (Rec.file_write data a) (file_write TraceLog data b)).
    { intros data a b [Ha Hab]. split; [done|].
      intros Hnone. unfold same_bytes in Hab. simpl in *.
      by rewrite (Hab Hnone). }
    assert (Hf1 : R1 fr "").
    { split; [done|]. intros Hnone. subst fr. simpl in *. by rewrite Hnone. }
    specialize (IHb Hb _ _ Rec.file_write (file_write TraceLog)
                  R1 fr "" seen Hfw1 Hf1).
    destruct (transcript Rec.file_write body fr seen) as [[cb fr1] seen1].
    destruct (run TraceLog (file_write TraceLog) body "" [])
      as [[db content] rb].
    destruct IHb as (-> & HR1 & Hdb). destruct HR1 as [Hdata Hbytes].
    set (seen2 := match o_data fr1 with Some _ => seen1 | None => _ end).
    specialize (IHk Hk F F' fw fw' R f f' seen2 Hfw Hf).
    destruct (transcript fw k f seen2) as [[ck f2] seen2'].
    destruct (run TraceLog fw' k f' []) as [[dk f2'] rk].
    destruct IHk as (-> & HR2 & Hdk). split_and!; [done..|].
    intros rest opens. simpl. rewrite <- !app_assoc, Hdb. simpl.
    rewrite map_app. simpl. rewrite <- app_assoc. simpl.
    subst seen2. rewrite <- Hdata in *.
    unfold same_bytes in Hbytes.
    destruct (o_data fr1) as [cached|] eqn:Hcached.
    + by rewrite Hdk.
    + pose proof (Hbytes eq_refl) as Hbuf.
      rewrite Hbuf in Hdk |- *. simpl in Hdk |- *. by rewrite Hdk.
  - cbn [transcript run].
    apply (IHk Hnr F F' fw fw' R (fw data f) (fw' data f') seen Hfw).
    by apply Hfw.
Qed.

(** Putting the cached bytes in changes nothing but the bytes of files. *)
Lemma deliver_cached_shape (tr : list event) :
  ∀ seen opens, map shape (deliver_cached tr seen opens) = map shape tr.
Proof.
  induction tr as [|e tr IH]; intros seen opens; [done|].
  destruct e; simpl; rewrite ?IH; try done.
  destruct opens as [|[id [data|]] opens]; simpl; by rewrite IH.
Qed.

(** With no true id in the trace, and none pending, nothing is cached
    and the trace stays as it is. *)
Lemma deliver_cached_no_id (tr : list event) :
  (∀ filename mode lvl id,
     ev_open filename mode lvl id ∈ tr → truthy id = false) →
  ∀ seen opens,
    (∀ id, truthy id = false → seen !! id = None) →
    Forall (λ o : ident * option string, truthy o.1 = false ∧ o.2 = None)
      opens →
    deliver_cached tr seen opens = tr.
Proof.
  induction tr as [|e tr IH]; intros Hids seen opens Hseen Hopens; [done|].
  assert (Htl : ∀ filename mode lvl id,
            ev_open filename mode lvl id ∈ tr → truthy id = false).
  { intros ???? Hin. eapply Hids. by right. }
  destruct e; simpl; try (by rewrite IH).
  - rewrite IH; try done. constructor; [|done]. simpl.
    assert (Hid : truthy id = false) by (eapply Hids; left).
    split; [done|]. by apply Hseen.
  - destruct Hopens as [|[id data] opens [Hid Hdata] Hopens]; simpl in *.
    + by rewrite IH.
    + subst data. rewrite Hid. by rewrite IH.
Qed.

(** *** What stays in a recording *)

(** What every recording method keeps, every session keeps, whether it
    returns or raises. *)
Lemma run_rec_inv (P : RecordLog → Prop) :
  (∀ title s, P s → P (Rec.pushcontext title s)) →
  (∀ s, P s → P (Rec.popcontext s)) →
  (∀ text lvl s, P s → P (Rec.write text lvl s)) →
  (∀ filename mode lvl id s,
     P s → P (Rec.append (open_enter filename mode lvl id) s)) →
  (∀ fr value s, P s → P (Rec.open_resume fr value s).1) →
  ∀ (p : session) {F : Type} (fw : string → F → F) (f : F) (s : RecordLog),
    P s → P (run RecordLog_Log fw p f s).1.1.
Proof.
  intros Hpush Hpop Hwrite Henter Hresume.
  induction p as [|title k IHk|k IHk|text lvl k IHk|text body IHb k IHk
                 |filename mode lvl id body IHb k IHk|data k IHk|e];
    intros F fw f s Hs; try done.
  - simpl. apply IHk. by apply Hpush.
  - simpl. apply IHk. by apply Hpop.
  - simpl. apply IHk. by apply Hwrite.
  - rewrite run_Context.
    specialize (IHb F fw f (pushcontext RecordLog_Log text s)
                  (Hpush _ _ Hs)).
    destruct (run _ fw body f _) as [[s2 f2] [[]|e]]; simpl in *.
    + apply IHk. by apply Hpop.
    + by apply Hpop.
  - rewrite run_rec_Open.
    specialize (IHb _ Rec.file_write
      (Rec.open__enter__ filename mode lvl id s).2
      (Rec.append (open_enter filename mode lvl id) s) (Henter _ _ _ _ _ Hs)).
    destruct (run _ Rec.file_write body _ _) as [[s2 fr2] [[]|e]];
      cbn [fst snd] in *.
    + apply IHk. by apply Hresume.
    + by apply Hresume.
  - simpl. by apply IHk.
Qed.

Lemma open_resume_messages fr value s :
  ∃ data, _messages (Rec.open_resume fr value s).1 =
          _messages s ++ [open_exit data].
Proof.
  unfold Rec.open_resume. destruct value as [e|]; simpl; [eauto|].
  destruct (o_data fr); simpl; [eauto|].
  destruct (truthy (o_id fr)); simpl; eauto.
Qed.

Lemma push_cmd_cases (ms : list command) (c : command) :
  push_cmd ms c = ms ++ [c] ∨
  ∃ ms0 title, ms = ms0 ++ [context_enter title] ∧ c = context_exit ∧
               push_cmd ms c = ms0.
Proof.
  destruct c; try (by left). unfold push_cmd.
  destruct (Rec.last_is_context_enter ms) eqn:Hlast; [|by left].
  apply last_is_context_enter_inv in Hlast as (ms0 & title & ->).
  right. exists ms0, title. by rewrite removelast_last.
Qed.

(** Whatever has been recorded up to a command that is not a
    [context_enter] stays in place through every later session. *)
Lemma run_keeps_prefix (ms : list command) (c : command) :
  (∀ title, c ≠ context_enter title) →
  ∀ (p : session) {F : Type} (fw : string → F → F) (f : F) (s : RecordLog),
    (∃ suffix, _messages s = (ms ++ [c]) ++ suffix) →
    ∃ suffix, _messages (run RecordLog_Log fw p f s).1.1 =
              (ms ++ [c]) ++ suffix.
Proof.
  intros Hc.
  assert (Hpush : ∀ s c',
    (∃ suffix, _messages s = (ms ++ [c]) ++ suffix) →
    ∃ suffix, push_cmd (_messages s) c' = (ms ++ [c]) ++ suffix).
  { intros s c' [suffix Hs]. rewrite Hs.
    destruct (push_cmd_cases ((ms ++ [c]) ++ suffix) c')
      as [->|(ms0 & title & Heq & -> & ->)].
    - exists (suffix ++ [c']). by rewrite <- app_assoc.
    - destruct suffix as [|x suffix _] using rev_ind.
      + rewrite app_nil_r in Heq. apply app_inj_tail in Heq as [_ ->].
        by destruct (Hc title).
      + rewrite app_assoc in Heq. apply app_inj_tail in Heq as [<- _].
        eauto. }
  apply (run_rec_inv (λ s, ∃ suffix, _messages s = (ms ++ [c]) ++ suffix)).
  - intros title s Hs. exact (Hpush s (context_enter title) Hs).
  - intros s Hs. rewrite rec_popcontext_push_cmd. by apply Hpush.
  - intros text lvl s Hs. exact (Hpush s (write_cmd text lvl) Hs).
  - intros filename mode lvl id s Hs.
    exact (Hpush s (open_enter filename mode lvl id) Hs).
  - intros fr value s Hs.
    destruct (open_resume_messages fr value s) as [data ->].
    exact (Hpush s (open_exit data) Hs).
Qed.







(** The replayed trace as a function of the direct one: the direct trace
    with the cached bytes put in and the empty contexts taken out, then one
    pop for each context that the session left open. *)
Lemma replay_collapsed (p : session) (d' : nat) :
  no_raise p = true →
  balanced 0 p = Some d' →
  replay TraceLog (run_session RecordLog_Log p RecordLog__init__).1 [] =
    (fold_left collapse_step
       (deliver_cached (run_session TraceLog p []).1 ∅ []) [] ++
     replicate d' ev_popcontext,
     Returns tt).
Proof.
  intros Hnr Hbal.
  set (fw := λ (_ : string) (u : unit), u).
  pose proof (record_transcript p Hnr fw tt RecordLog__init__) as Hrec.
  pose proof (nest_transcript p Hnr 0 d' Hbal fw tt ∅ [] []) as Hnest.
  pose proof (direct_transcript p Hnr fw fw (λ _ _, True) tt tt ∅
                (λ _ _ _ _, I) I) as Hdir.
  change (_seen RecordLog__init__) with (∅ : gmap ident string) in Hrec.
  unfold run_session. fold fw. rewrite Hrec. clear Hrec.
  destruct (transcript fw p tt ∅) as [[cs u] seen'].
  destruct (run TraceLog fw p tt []) as [[d u'] r].
  destruct Hdir as (-> & _ & Hdir). cbn [fst snd _messages] in *.
  specialize (Hdir [] []). rewrite !app_nil_r in Hdir, Hnest.
  simpl in Hnest, Hdir. rewrite Hdir.
  pose proof (nest_collapse cs [] [] _ Hnest) as Hcol.
  pose proof (replay_trace _ [] [] _ Hcol) as Hrep.
  change (entries []) with (@nil (entry string)) in Hrep.
  change (_messages RecordLog__init__) with (@nil command) in *.
  unfold replay. cbn [_messages].
  rewrite (replay_body_returns TraceLog _ _ _ _ _ false Hrep). cbn [app].
  rewrite app_nil_r, entries_replicate, reclaim_contexts, trace_pops.
  by rewrite (ev_of_collapse cs []).
Qed.

(** *** The round trip *)

(** C1 does not hold: a context that is pushed and popped with nothing in
    between is not recorded, so replay does nothing where driving the
    backend directly pushes and pops; no file is involved. *)
Lemma replay_drops_empty_context :
  let p := Pushcontext "A" (Popcontext Done) in
  let record := (run_session RecordLog_Log p RecordLog__init__).1 in
  let direct := (run_session TraceLog p []).1 in
  no_raise p = true ∧ balanced 0 p = Some 0 ∧
  direct = [ev_pushcontext "A"; ev_popcontext] ∧
  deliver_cached direct ∅ [] = direct ∧
  replay TraceLog record [] = ([], Returns tt) ∧
  (replay TraceLog record []).1 ≠ deliver_cached direct ∅ [].
Proof. vm_compute. split_and!; (reflexivity || discriminate). Qed.

(** C1, amended.  Take a session of pushes, pops, context scopes, writes
    and file scopes with bytes written into them, in which nothing raises,
    which is well nested and which has popped every context it pushed when
    it ends.  Recording it on a fresh [RecordLog] and replaying the
    recording onto the fresh capturing backend succeeds, and the trace it
    leaves is the trace of driving that backend directly with the session,
    with two differences: every file whose id was stored by an earlier
    completed file shows the stored bytes, and the contexts that are pushed
    and popped with nothing in between are taken out, none of them being
    left. *)
Theorem replay_roundtrip (p : session) :
  no_raise p = true →
  balanced 0 p = Some 0 →
  let record := (run_session RecordLog_Log p RecordLog__init__).1 in
  let direct := (run_session TraceLog p []).1 in
  ∃ tr,
    replay TraceLog record [] = (tr, Returns tt) ∧
    erases (deliver_cached direct ∅ []) tr ∧
    no_empty_context tr = true.
Proof.
  intros Hnr Hbal record direct. subst record direct.
  exists (fold_left collapse_step
            (deliver_cached (run_session TraceLog p []).1 ∅ []) []).
  split_and!.
  - rewrite (replay_collapsed p 0 Hnr Hbal). cbn [replicate].
    by rewrite app_nil_r.
  - apply (erases_collapse _ []).
  - by apply no_empty_context_collapse.
Qed.

Lemma replay_roundtrip_witness :
  let p := Pushcontext "build"
             (Write "start" 1
                (Open "out.txt" "w" 1 None (FWrite "data" Done)
                   (Popcontext Done))) in
  no_raise p = true ∧ balanced 0 p = Some 0 ∧
  ∃ tr,
    replay TraceLog (run_session RecordLog_Log p RecordLog__init__).1 [] =
      (tr, Returns tt) ∧
    erases (deliver_cached (run_session TraceLog p []).1 ∅ []) tr ∧
    no_empty_context tr = true.
Proof.
  intros p. split; [reflexivity|]. split; [reflexivity|].
  apply (replay_roundtrip p); reflexivity.
Defined.

(** The scenario of the specification: the replayed trace is the direct
    one. *)
Example replay_build_scenario :
  let p := Pushcontext "build"
             (Write "start" INFO
                (Open "out.txt" "w" INFO None (FWrite "data" Done)
                   (Popcontext Done))) in
  replay TraceLog (run_session RecordLog_Log p RecordLog__init__).1 [] =
    ([ev_pushcontext "build"; ev_write "start" INFO;
      ev_open "out.txt" "w" INFO None; ev_close "data"; ev_popcontext],
     Returns tt) ∧
  run_session TraceLog p [] =
    ([ev_pushcontext "build"; ev_write "start" INFO;
      ev_open "out.txt" "w" INFO None; ev_close "data"; ev_popcontext],
     Returns tt).
Proof. split; reflexivity. Qed.

(** What leaving [replay] does, on five short recordings: a context left
    open is popped when [replay] returns; of a context and a file left
    open, the one that [ctx] is bound to goes last; a context that
    [open_exit] popped stays held when [ctx] is bound to it, and is popped
    at once when it is not. *)
Example replay_leaves_scopes :
  let replayed ms := replay TraceLog {| _messages := ms; _seen := ∅ |} [] in
  replayed [context_enter "a"; write_cmd "m" 1] =
    ([ev_pushcontext "a"; ev_write "m" 1; ev_popcontext], Returns tt) ∧
  replayed [context_enter "a"; open_enter "f" "w" 1 None] =
    ([ev_pushcontext "a"; ev_open "f" "w" 1 None;
      ev_popcontext; ev_close ""], Returns tt) ∧
  replayed [open_enter "f" "w" 1 None; context_enter "a"] =
    ([ev_open "f" "w" 1 None; ev_pushcontext "a";
      ev_close ""; ev_popcontext], Returns tt) ∧
  replayed [context_enter "a"; open_exit None] =
    ([ev_pushcontext "a"], Raises TypeError) ∧
  replayed [context_enter "a"; context_enter "b"; context_exit;
            open_exit None] =
    ([ev_pushcontext "a"; ev_pushcontext "b"; ev_popcontext;
      ev_popcontext], Raises TypeError).
Proof. vm_compute. split_and!; reflexivity. Qed.

(** *** Two opens with the same id *)


(** Nor does the first call's buffer stay when that call is made inside a
    still open call with the same id: the outer call found the id
    uncached, so it stores its own bytes over the inner ones when it
    exits, and a third call records those. *)
Example open_same_id_nested :
  let p := Open "a" "w" 1 (Some "k")
             (FWrite "outer"
                (Open "b" "w" 1 (Some "k") (FWrite "inner" Done) Done))
             (Open "c" "w" 1 (Some "k") Done Done) in
  let self := (run_session RecordLog_Log p RecordLog__init__).1 in
  _seen self !! Some "k" = Some "outer" ∧
  _messages self =
    [open_enter "a" "w" 1 (Some "k");
     open_enter "b" "w" 1 (Some "k"); open_exit (Some "inner");
     open_exit (Some "outer");
     open_enter "c" "w" 1 (Some "k"); open_exit (Some "outer")].
Proof. vm_compute. split; reflexivity. Qed.



(** * Further properties *)

(** ** Invariants of a recording *)

Lemma no_empty_pair_ev (ms : list command) :
  no_empty_pair ms = no_empty_context (map ev_of ms).
Proof.
  induction ms as [|a ms IH]; [done|].
  destruct ms as [|b ms]; [by destruct a|].
  destruct a, b; simpl in *; done.
Qed.

Lemma no_empty_pair_push_cmd (ms : list command) (c : command) :
  no_empty_pair ms = true → no_empty_pair (push_cmd ms c) = true.
Proof.
  rewrite !no_empty_pair_ev, ev_of_push_cmd. intros Hms.
  by apply (no_empty_context_collapse [ev_of c]).
Qed.

(** Whatever session is recorded, returning or raising, the recording never
    holds a [context_enter] directly followed by a [context_exit]. *)
Theorem recording_has_no_empty_context (p : session) {F : Type}
    (fw : string → F → F) (f : F) (self : RecordLog) :
  no_empty_pair (_messages self) = true →
  no_empty_pair (_messages (run RecordLog_Log fw p f self).1.1) = true.
Proof.
  apply (run_rec_inv (λ s, no_empty_pair (_messages s) = true)).
  - intros title s Hs.
    exact (no_empty_pair_push_cmd _ (context_enter title) Hs).
  - intros s Hs. rewrite rec_popcontext_push_cmd.
    by apply no_empty_pair_push_cmd.
  - intros text lvl s Hs.
    exact (no_empty_pair_push_cmd _ (write_cmd text lvl) Hs).
  - intros filename mode lvl id s Hs.
    exact (no_empty_pair_push_cmd _ (open_enter filename mode lvl id) Hs).
  - intros fr value s Hs.
    destruct (open_resume_messages fr value s) as [data ->].
    exact (no_empty_pair_push_cmd _ (open_exit data) Hs).
Qed.

Lemma recording_has_no_empty_context_witness :
  let p := Pushcontext "a" (Context "b" (Raise (Exn "E")) Done) in
  no_empty_pair (_messages RecordLog__init__) = true ∧
  no_empty_pair
    (_messages (run RecordLog_Log (λ _ (u : unit), u) p tt
                  RecordLog__init__).1.1) = true.
Proof.
  intros p. split; [reflexivity|].
  apply (recording_has_no_empty_context p). reflexivity.
Defined.

(** The seen-cache holds true ids only, so a file opened with no id, or
    with an empty one, is never served from the cache: it gets a fresh
    buffer. *)
Theorem falsy_id_never_cached (p : session) {F : Type}
    (fw : string → F → F) (f : F) (id : ident)
    (filename mode : string) (lvl : level) :
  truthy id = false →
  let self := (run RecordLog_Log fw p f RecordLog__init__).1.1 in
  _seen self !! id = None ∧
  (Rec.open__enter__ filename mode lvl id self).2 =
    {| o_id := id; o_data := None; o_f := tempfile "" |}.
Proof.
  intros Hid self.
  assert (Hkeys : ∀ id' data, _seen self !! id' = Some data →
                              truthy id' = true).
  { subst self.
    apply (run_rec_inv (λ s, ∀ id' data, _seen s !! id' = Some data →
                                         truthy id' = true)); try done.
    - intros s Hs id' data. rewrite seen_popcontext. apply Hs.
    - intros fr value s Hs id' data. unfold Rec.open_resume.
      destruct value as [e|]; simpl; [apply Hs|].
      destruct (o_data fr); simpl; [apply Hs|].
      destruct (truthy (o_id fr)) eqn:Hfr; simpl; [|apply Hs].
      destruct (decide (o_id fr = id')) as [<-|Hne]; [done|].
      rewrite lookup_insert_ne by done. apply Hs. }
  assert (Hnone : _seen self !! id = None).
  { destruct (_seen self !! id) as [data|] eqn:Hlook; [|done].
    apply Hkeys in Hlook. congruence. }
  split; [done|]. by rewrite enter_frame, Hnone.
Qed.

Lemma falsy_id_never_cached_witness :
  let p := Open "a" "w" 1 (Some "") (FWrite "x" Done)
             (Open "b" "w" 1 (Some "k") (FWrite "y" Done) Done) in
  let self := (run RecordLog_Log (λ _ (u : unit), u) p tt
                 RecordLog__init__).1.1 in
  truthy (Some "") = false ∧
  _seen self !! Some "" = None ∧
  (Rec.open__enter__ "c" "w" 1 (Some "") self).2 =
    {| o_id := Some ""; o_data := None; o_f := tempfile "" |}.
Proof.
  intros p self. split; [reflexivity|].
  apply (falsy_id_never_cached p (λ _ (u : unit), u) tt (Some "") "c" "w" 1).
  reflexivity.
Defined.

(** First writer wins, for good: no session, returning or raising, removes
    or changes an entry of the seen-cache. *)
Theorem seen_cache_grows (p : session) {F : Type}
    (fw : string → F → F) (f : F) (self : RecordLog) :
  _seen self ⊆ _seen (run RecordLog_Log fw p f self).1.1.
Proof.
  apply map_subseteq_spec. intros id data Hid.
  by apply seen_preserved.
Qed.

(** Collapsing never eats a message: whatever has been recorded up to a
    command that is not a [context_enter] stays in the recording, in place,
    through every later session. *)
Theorem recorded_prefix_stays (p : session) {F : Type}
    (fw : string → F → F) (f : F) (self : RecordLog)
    (ms : list command) (c : command) :
  (∀ title, c ≠ context_enter title) →
  _messages self = ms ++ [c] →
  ∃ suffix,
    _messages (run RecordLog_Log fw p f self).1.1 = (ms ++ [c]) ++ suffix.
Proof.
  intros Hc Hself. apply (run_keeps_prefix ms c Hc).
  exists []. by rewrite app_nil_r.
Qed.

Lemma recorded_prefix_stays_witness :
  let self := {| _messages := [write_cmd "m" 1]; _seen := ∅ |} in
  ∃ suffix,
    _messages (run RecordLog_Log (λ _ (u : unit), u)
                 (Popcontext (Pushcontext "a" (Popcontext Done))) tt
                 self).1.1 = ([] ++ [write_cmd "m" 1]) ++ suffix.
Proof.
  intros self.
  apply (recorded_prefix_stays _ (λ _ (u : unit), u) tt self []
           (write_cmd "m" 1)); [|reflexivity].
  intros title Heq. discriminate Heq.
Defined.

(** ** When replay succeeds *)

(** The loop of [replay] on the capturing backend, started with the scopes
    [ks] open: it comes to its end exactly when the commands keep the
    discipline of the [contexts] stack. *)
Lemma replay_loop_nest (ms : list command) :
  ∀ (s : list event) (ks : list bool),
    match nest ms ks with
    | Some ks' =>
        replay_loop TraceLog ms s (entries ks) =
        (s ++ map ev_of ms, entries ks', Returns tt)
    | None =>
        ∃ n contexts e,
          n < length ms ∧
          replay_loop TraceLog ms s (entries ks) =
            (s ++ map ev_of (take n ms), contexts, Raises e) ∧
          e ∈ [IndexError; AttributeError; TypeError]
    end.
Proof.
  induction ms as [|c ms IH]; intros s ks.
  - simpl. by rewrite app_nil_r.
  - assert (Hstep : ∀ ks1,
      replay_cmd TraceLog c s (entries ks) =
        (s ++ [ev_of c], entries ks1, Returns tt) →
      nest (c :: ms) ks = nest ms ks1 →
      match nest (c :: ms) ks with
      | Some ks' =>
          replay_loop TraceLog (c :: ms) s (entries ks) =
          (s ++ map ev_of (c :: ms), entries ks', Returns tt)
      | None =>
          ∃ n contexts e,
            n < length (c :: ms) ∧
            replay_loop TraceLog (c :: ms) s (entries ks) =
              (s ++ map ev_of (take n (c :: ms)), contexts, Raises e) ∧
            e ∈ [IndexError; AttributeError; TypeError]
      end).
    { intros ks1 Hcmd ->. specialize (IH (s ++ [ev_of c]) ks1).
      cbn [replay_loop]. rewrite Hcmd.
      destruct (nest ms ks1) as [ks'|].
      - rewrite IH. by rewrite <- app_assoc.
      - destruct IH as (n & contexts & e & Hn & -> & He).
        exists (Datatypes.S n), contexts, e.
        split_and!; [simpl; lia| |done].
        by rewrite <- app_assoc. }
    assert (Hfail : ∀ contexts e,
      replay_cmd TraceLog c s (entries ks) = (s, contexts, Raises e) →
      e ∈ [IndexError; AttributeError; TypeError] →
      ∃ n contexts e,
        n < length (c :: ms) ∧
        replay_loop TraceLog (c :: ms) s (entries ks) =
          (s ++ map ev_of (take n (c :: ms)), contexts, Raises e) ∧
        e ∈ [IndexError; AttributeError; TypeError]).
    { intros contexts e Hcmd He. exists 0, contexts, e.
      split_and!; [simpl; lia| |done].
      cbn [replay_loop]. rewrite Hcmd. simpl. by rewrite app_nil_r. }
    destruct c as [title| |filename mode lvl id|data|text lvl].
    + by apply (Hstep (false :: ks)).
    + destruct ks as [|[] ks].
      * apply (Hfail [] IndexError); [done|set_solver].
      * apply (Hfail (entries ks) AttributeError); [done|set_solver].
      * by apply (Hstep ks).
    + by apply (Hstep (true :: ks)).
    + destruct ks as [|[] ks].
      * apply (Hfail [] IndexError); [done|set_solver].
      * apply (Hstep ks); [|done]. by destruct data.
      * apply (Hfail (entries ks) TypeError); [done|set_solver].
    + by apply (Hstep ks).
Qed.

Lemma all_contexts (ks : list bool) :
  forallb negb ks = true → ks = replicate (length ks) false.
Proof.
  induction ks as [|[] ks IH]; intros Hall; simpl in *; try done.
  by rewrite <- IH.
Qed.

(** Replaying a command list onto the capturing backend returns exactly
    when the list keeps the discipline of the [contexts] stack.  When the
    scopes that it then leaves open are all contexts (none, in particular),
    the backend has seen one event per command, in order, and after them
    one pop for each context left open.  When the list breaks the
    discipline, replay raises [IndexError] (an exit with nothing open),
    [AttributeError] (a [context_exit] closing a file scope) or [TypeError]
    (an [open_exit] closing a context). *)
Theorem replay_succeeds_iff_nested (ms : list command)
    (seen : gmap ident string) (s : list event) :
  let self := {| _messages := ms; _seen := seen |} in
  match nest ms [] with
  | Some ks' =>
      (replay TraceLog self s).2 = Returns tt ∧
      if forallb negb ks'
      then (replay TraceLog self s).1 =
             s ++ map ev_of ms ++ replicate (length ks') ev_popcontext
      else True
  | None =>
      ∃ e, (replay TraceLog self s).2 = Raises e ∧
           e ∈ [IndexError; AttributeError; TypeError]
  end.
Proof.
  intros self. subst self. unfold replay. cbn [_messages].
  pose proof (replay_loop_nest ms s []) as Hloop.
  change (entries []) with (@nil (entry string)) in Hloop.
  destruct (nest ms []) as [ks'|].
  - rewrite (replay_body_returns TraceLog _ _ _ _ _ false Hloop).
    split; [done|]. cbn [fst].
    destruct (forallb negb ks') eqn:Hall; [|done].
    rewrite (all_contexts ks' Hall) at 1.
    rewrite entries_replicate, reclaim_contexts, trace_pops.
    by rewrite <- app_assoc.
  - destruct Hloop as (n & contexts & e & _ & Hloop & He). exists e.
    split; [|done]. apply (replay_body_raises TraceLog _ _ _ _ _ _ _ Hloop).
Qed.

(** Replaying a recording without file commands onto any backend whose
    methods return makes the calls [pushcontext], [popcontext] and [write]
    that the commands stand for, in order, then one [popcontext] for each
    context that the recording leaves open, and nothing else. *)
Theorem replay_makes_the_calls {S H : Type} (log : Log S H)
    (ms : list command) (cs : list call) (seen : gmap ident string)
    (ks' : list bool) (s : S) :
  Forall2 (λ c x, call_of c = Some x) ms cs →
  nest ms [] = Some ks' →
  replay log {| _messages := ms; _seen := seen |} s =
    (do_calls log (cs ++ replicate (length ks') call_popcontext) s,
     Returns tt).
Proof.
  intros Hcalls Hnest. unfold replay. cbn [_messages].
  assert (Hgen : ∀ (d : nat) (s : S),
    nest ms (replicate d false) = Some ks' →
    replay_loop log ms s (replicate d entry_ctx) =
      (do_calls log cs s, replicate (length ks') entry_ctx, Returns tt)).
  { clear Hnest s. induction Hcalls as [|c x ms cs Hc _ IH]; intros d s Hn.
    - simpl in Hn. simplify_eq. by rewrite length_replicate.
    - destruct c as [title| |filename mode lvl id|data|text lvl];
        simplify_eq/=.
      + apply (IH (Datatypes.S d)). exact Hn.
      + destruct d as [|d]; [done|]. apply (IH d). exact Hn.
      + apply (IH d). exact Hn. }
  pose proof (Hgen 0 s Hnest) as Hrep.
  change (replicate 0 entry_ctx) with (@nil (entry H)) in Hrep.
  rewrite (replay_body_returns log _ _ _ _ _ false Hrep).
  by rewrite reclaim_contexts, do_calls_app.
Qed.

Lemma replay_makes_the_calls_witness :
  let ms := [context_enter "a"; write_cmd "m" 1; context_exit;
             context_enter "b"] in
  replay TraceLog {| _messages := ms; _seen := ∅ |} [] =
    (do_calls TraceLog
       ([call_pushcontext "a"; call_write "m" 1; call_popcontext;
         call_pushcontext "b"] ++
        replicate (length [false]) call_popcontext) [],
     Returns tt).
Proof.
  intros ms.
  apply (replay_makes_the_calls TraceLog ms
           [call_pushcontext "a"; call_write "m" 1; call_popcontext;
            call_pushcontext "b"]
           ∅ [false]); [|reflexivity].
  repeat constructor.
Defined.

(** A session that enters contexts and files through [with] only keeps
    the recording well nested, also when it raises. *)
Lemma nest_scoped (p : session) :
  scoped p = true →
  ∀ {F : Type} (fw : string → F → F) (f : F) (self : RecordLog) ks ks',
    nest (_messages self) ks = Some ks' →
    nest (_messages (run RecordLog_Log fw p f self).1.1) ks = Some ks'.
Proof.
  induction p as [|title k IHk|k IHk|text lvl k IHk|text body IHb k IHk
                 |filename mode lvl id body IHb k IHk|data k IHk|e];
    intros Hsc F fw f self ks ks' Hn; simpl in Hsc; try done.
  - simpl. apply IHk; [done|]. simpl. by rewrite nest_app, Hn.
  - apply andb_prop in Hsc as [Hb Hk]. rewrite run_Context.
    assert (Hpop : ∀ s, nest (_messages s) ks = Some (false :: ks') →
                        nest (_messages (Rec.popcontext s)) ks = Some ks').
    { intros s Hs. rewrite rec_popcontext_push_cmd. cbn [_messages].
      apply (nest_collapse [context_exit]). by rewrite nest_app, Hs. }
    specialize (IHb Hb F fw f (pushcontext RecordLog_Log text self)
                  ks (false :: ks')).
    destruct (run _ fw body f _) as [[s2 f2] [[]|e]]; cbn [fst snd] in *.
    + apply IHk; [done|]. apply Hpop, IHb. simpl. by rewrite nest_app, Hn.
    + apply Hpop, IHb. simpl. by rewrite nest_app, Hn.
  - apply andb_prop in Hsc as [Hb Hk]. rewrite run_rec_Open.
    assert (Hexit : ∀ fr value s,
      nest (_messages s) ks = Some (true :: ks') →
      nest (_messages (Rec.open_resume fr value s).1) ks = Some ks').
    { intros fr value s Hs.
      destruct (open_resume_messages fr value s) as [data ->].
      by rewrite nest_app, Hs. }
    specialize (IHb Hb _ Rec.file_write
      (Rec.open__enter__ filename mode lvl id self).2
      (Rec.append (open_enter filename mode lvl id) self)
      ks (true :: ks')).
    destruct (run _ Rec.file_write body _ _) as [[s2 fr2] [[]|e]];
      cbn [fst snd] in *.
    + apply IHk; [done|]. apply Hexit, IHb. simpl. by rewrite nest_app, Hn.
    + apply Hexit, IHb. simpl. by rewrite nest_app, Hn.
  - simpl. by apply IHk.
Qed.

(** A recording made through [with] scopes only can always be replayed,
    also when the recorded session raised: replay onto the capturing
    backend succeeds, closes every scope it opened, and shows one event per
    recorded command. *)
Theorem scoped_recording_replays (p : session) :
  scoped p = true →
  let record := (run_session RecordLog_Log p RecordLog__init__).1 in
  replay TraceLog record [] = (map ev_of (_messages record), Returns tt) ∧
  nest (_messages record) [] = Some [].
Proof.
  intros Hsc record.
  assert (Hn : nest (_messages record) [] = Some []).
  { subst record. unfold run_session.
    pose proof (nest_scoped p Hsc (λ _ (u : unit), u) tt RecordLog__init__
                  [] [] eq_refl) as Hn.
    by destruct (run _ _ p tt _) as [[s u] r]. }
  split; [|done].
  pose proof (replay_trace (_messages record) [] [] [] Hn) as Hrep.
  change (entries []) with (@nil (entry string)) in Hrep.
  by rewrite (replay_of_loop TraceLog record _ _ _ Hrep).
Qed.

Lemma scoped_recording_replays_witness :
  let p := Context "a" (Open "f" "w" 1 None
                          (FWrite "x" (Raise (Exn "E"))) Done) Done in
  replay TraceLog (run_session RecordLog_Log p RecordLog__init__).1 [] =
    (map ev_of
       (_messages (run_session RecordLog_Log p RecordLog__init__).1),
     Returns tt).
Proof.
  intros p. apply (proj1 (scoped_recording_replays p eq_refl)).
Defined.

(** ** Sessions of contexts only *)

(** A session that only pushes and pops contexts, and never pops a context
    that it did not find open, adds to the recording the contexts that are
    open at its end, each with its title, in the order in which they were
    pushed, and nothing else; it leaves what was recorded before and the
    seen-cache alone.  When no context is open at its end, it records
    nothing. *)
Theorem contexts_only_recording (p : session) :
  ∀ {F : Type} (fw : string → F → F) (f : F) (base : list command)
    (stack stack' : list string) (seen : gmap ident string),
    open_contexts p stack = Some stack' →
    run RecordLog_Log fw p f
      {| _messages := base ++ map context_enter (rev stack);
         _seen := seen |} =
    ({| _messages := base ++ map context_enter (rev stack');
        _seen := seen |},
     f, Returns tt).
Proof.
  assert (Hpush : ∀ title base stack,
    (base ++ map context_enter (rev stack)) ++ [context_enter title] =
    base ++ map context_enter (rev (title :: stack))).
  { intros title base stack. cbn [rev].
    by rewrite map_app, <- app_assoc. }
  assert (Hpop : ∀ title base stack seen,
    Rec.popcontext
      {| _messages := base ++ map context_enter (rev (title :: stack));
         _seen := seen |} =
    {| _messages := base ++ map context_enter (rev stack); _seen := seen |}).
  { intros title base stack seen. rewrite <- Hpush.
    by rewrite popcontext_snoc. }
  induction p as [|title k IHk|k IHk|text lvl k IHk|text body IHb k IHk
                 |filename mode lvl id body IHb k IHk|data k IHk|e];
    intros F fw f base stack stack' seen Hopen; simpl in Hopen; try done.
  - by simplify_eq.
  - rewrite <- (IHk F fw f base (title :: stack) stack' seen Hopen).
    by rewrite <- Hpush.
  - destruct stack as [|title stack]; [done|].
    rewrite <- (IHk F fw f base stack stack' seen Hopen).
    cbn [run]. change (popcontext RecordLog_Log ?s) with (Rec.popcontext s).
    by rewrite Hpop.
  - destruct (open_contexts body (text :: stack)) as [[|title1 stack1]|]
      eqn:Hbody; try done.
    rewrite run_Context.
    change (pushcontext RecordLog_Log text
              {| _messages := base ++ map context_enter (rev stack);
                 _seen := seen |})
      with {| _messages := (base ++ map context_enter (rev stack)) ++
                           [context_enter text];
              _seen := seen |}.
    rewrite Hpush.
    rewrite (IHb F fw f base (text :: stack) _ seen Hbody).
    change (popcontext RecordLog_Log ?s) with (Rec.popcontext s).
    rewrite (Hpop title1 base stack1 seen).
    apply (IHk F fw f base stack1 stack' seen Hopen).
Qed.

Lemma contexts_only_recording_witness :
  let p := Pushcontext "a"
             (Context "b" (Pushcontext "c" (Popcontext Done))
                (Pushcontext "d" Done)) in
  run RecordLog_Log (λ _ (u : unit), u) p tt
    {| _messages := [write_cmd "m" 1] ++ map context_enter (rev []);
       _seen := ∅ |} =
  ({| _messages := [write_cmd "m" 1] ++ map context_enter (rev ["d"; "a"]);
      _seen := ∅ |},
   tt, Returns tt).
Proof.
  intros p.
  apply (contexts_only_recording p (λ _ (u : unit), u) tt [write_cmd "m" 1]
           [] ["d"; "a"] ∅).
  reflexivity.
Defined.

(** ** What replay delivers *)

Lemma erases_payload (a b : list event) :
  erases a b → List.filter payload a = List.filter payload b.
Proof.
  induction 1 as [tr|a title b tr _ IH]; [done|].
  rewrite <- IH, !List.filter_app. done.
Qed.

(** Replay loses no message and no file: for a well-nested session in
    which nothing raises, the writes and the files of the replayed trace
    are those of the direct trace (with the cached bytes), in the same
    order, with their texts, levels, names and bytes. *)
Theorem replay_keeps_payload (p : session) :
  no_raise p = true →
  well_nested p = true →
  let record := (run_session RecordLog_Log p RecordLog__init__).1 in
  let direct := (run_session TraceLog p []).1 in
  (replay TraceLog record []).2 = Returns tt ∧
  List.filter payload (replay TraceLog record []).1 =
    List.filter payload (deliver_cached direct ∅ []).
Proof.
  intros Hnr Hwn record direct. subst record direct.
  unfold well_nested in Hwn.
  destruct (balanced 0 p) as [d'|] eqn:Hbal; [clear Hwn|done].
  rewrite (replay_collapsed p d' Hnr Hbal). split; [done|]. cbn [fst].
  rewrite List.filter_app.
  assert (Hpops : List.filter payload (replicate d' ev_popcontext) = []).
  { clear. induction d' as [|d' IH]; [done|]. exact IH. }
  rewrite Hpops, app_nil_r.
  symmetry. apply erases_payload.
  apply (erases_collapse _ []).
Qed.

Lemma replay_keeps_payload_witness :
  let p := Pushcontext "a" (Popcontext
             (Context "b" (Write "m" 2 Done)
                (Open "f" "w" 1 None (FWrite "x" Done) Done))) in
  (replay TraceLog (run_session RecordLog_Log p RecordLog__init__).1 []).2 =
    Returns tt ∧
  List.filter payload
    (replay TraceLog (run_session RecordLog_Log p RecordLog__init__).1 []).1 =
  List.filter payload (deliver_cached (run_session TraceLog p []).1 ∅ []).
Proof.
  intros p. apply (replay_keeps_payload p); reflexivity.
Defined.

(** ** Replaying onto another RecordLog *)

Lemma replay_loop_app {S H : Type} (log : Log S H) (a b : list command) :
  ∀ (s : S) (contexts : list (entry H)),
    replay_loop log (a ++ b) s contexts =
    match replay_loop log a s contexts with
    | (s', contexts', Returns _) => replay_loop log b s' contexts'
    | (s', contexts', Raises e) => (s', contexts', Raises e)
    end.
Proof.
  induction a as [|c a IH]; intros s contexts; [done|].
  simpl. destruct (replay_cmd log c s contexts) as [[s1 c1] [[]|e]]; [|done].
  apply IH.
Qed.

Lemma pop_push title self :
  Rec.popcontext (Rec.pushcontext title self) = self.
Proof.
  destruct self as [ms seen]. unfold Rec.pushcontext, Rec.append. simpl.
  by rewrite popcontext_snoc.
Qed.

(** A target that is itself a [RecordLog] collapses the empty contexts of
    what is replayed onto it, so replaying a collapsed list does to it what
    replaying the uncollapsed one does. *)
Lemma replay_rec_collapse (cs : list command) :
  ∀ (ms : list command) (s : RecordLog) contexts,
    replay_loop RecordLog_Log (fold_left push_cmd cs ms) s contexts =
    replay_loop RecordLog_Log (ms ++ cs) s contexts.
Proof.
  induction cs as [|c cs IH]; intros ms s contexts.
  - by rewrite app_nil_r.
  - simpl. rewrite IH.
    replace (ms ++ c :: cs) with ((ms ++ [c]) ++ cs)
      by by rewrite <- app_assoc.
    rewrite !(replay_loop_app _ _ cs).
    destruct (push_cmd_cases ms c) as [->|(ms0 & title & -> & -> & ->)];
      [done|].
    rewrite <- app_assoc, (replay_loop_app _ ms0).
    destruct (replay_loop RecordLog_Log ms0 s contexts)
      as [[s' c'] [[]|e]]; [|done].
    simpl. unfold context__exit__, context_resume. simpl.
    by rewrite pop_push.
Qed.

Lemma open__enter__eq filename mode lvl id self :
  Rec.open__enter__ filename mode lvl id self =
  (Rec.append (open_enter filename mode lvl id) self,
   {| o_id := id; o_data := _seen self !! id;
      o_f := match _seen self !! id with
             | Some _ => devnull
             | None => tempfile ""
             end |}).
Proof. unfold Rec.open__enter__. simpl. by destruct (_seen self !! id). Qed.

Lemma transcript_frame (p : session) (fr : open_frame) seen :
  no_raise p = true →
  let fr1 := (transcript Rec.file_write p fr seen).1.2 in
  o_id fr1 = o_id fr ∧ o_data fr1 = o_data fr.
Proof.
  intros Hnr.
  pose proof (run_frame RecordLog_Log p fr
                {| _messages := []; _seen := seen |}) as Hfr.
  rewrite (record_transcript p Hnr) in Hfr. simpl in Hfr.
  destruct (transcript Rec.file_write p fr seen) as [[cs fr1] seen1].
  simpl in *. tauto.
Qed.

(** Replaying the transcript of a session onto a [RecordLog] records what
    the session itself records on it. *)
Lemma replay_rec_transcript (p : session) :
  no_raise p = true →
  ∀ (d d' : nat), balanced d p = Some d' →
  ∀ {F : Type} (fw : string → F → F) (f : F) (t : RecordLog)
    (contexts : list (entry open_frame)) (rest : list command),
    replay_loop RecordLog_Log ((transcript fw p f (_seen t)).1.1 ++ rest) t
      (replicate d entry_ctx ++ contexts) =
    replay_loop RecordLog_Log rest
      {| _messages :=
           fold_left push_cmd (transcript fw p f (_seen t)).1.1 (_messages t);
         _seen := (transcript fw p f (_seen t)).2 |}
      (replicate d' entry_ctx ++ contexts).
Proof.
  induction p as [|title k IHk|k IHk|text lvl k IHk|text body IHb k IHk
                 |filename mode lvl id body IHb k IHk|data k IHk|e];
    intros Hnr d d' Hbal F fw f t contexts rest; simpl in Hnr, Hbal;
    try done.
  - simplify_eq. by destruct t.
  - cbn [transcript].
    specialize (IHk Hnr _ _ Hbal F fw f (Rec.pushcontext title t)
                  contexts rest).
    change (_seen (Rec.pushcontext title t)) with (_seen t) in IHk.
    destruct (transcript fw k f (_seen t)) as [[cs f'] seen'].
    rewrite Nat.add_1_r in IHk. exact IHk.
  - destruct d as [|d]; [done|]. cbn [transcript].
    specialize (IHk Hnr _ _ Hbal F fw f (Rec.popcontext t) contexts rest).
    rewrite seen_popcontext, rec_popcontext_push_cmd in IHk.
    destruct (transcript fw k f (_seen t)) as [[cs f'] seen'].
    cbn [fst snd _messages _seen] in *. cbn [fold_left].
    rewrite <- IHk. cbn [app replay_loop replay_cmd replicate].
    unfold context__exit__, context_resume.
    cbn [popcontext RecordLog_Log contextmanager__exit__].
    by rewrite rec_popcontext_push_cmd.
  - cbn [transcript].
    specialize (IHk Hnr _ _ Hbal F fw f (Rec.write text lvl t)
                  contexts rest).
    change (_seen (Rec.write text lvl t)) with (_seen t) in IHk.
    by destruct (transcript fw k f (_seen t)) as [[cs f'] seen'].
  - apply andb_prop in Hnr as [Hb Hk].
    destruct (balanced (d + 1) body) as [[|d1]|] eqn:Hbody; try done.
    cbn [transcript].
    specialize (IHb Hb _ _ Hbody F fw f (Rec.pushcontext text t) contexts).
    change (_seen (Rec.pushcontext text t)) with (_seen t) in IHb.
    destruct (transcript fw body f (_seen t)) as [[cb f1] seen1].
    cbn [fst snd] in IHb.
    specialize (IHk Hk _ _ Hbal F fw f1
      (Rec.popcontext
         {| _messages := fold_left push_cmd cb
                           (_messages (Rec.pushcontext text t));
            _seen := seen1 |}) contexts rest).
    rewrite seen_popcontext, rec_popcontext_push_cmd in IHk.
    cbn [_messages _seen] in IHk.
    destruct (transcript fw k f1 seen1) as [[ck f2] seen2].
    cbn [fst snd] in *. rewrite Nat.add_1_r in IHb.
    cbn [app]. rewrite <- app_assoc. cbn [app replay_loop replay_cmd].
    cbn [context__enter__ pushcontext RecordLog_Log].
    change (entry_ctx :: replicate d entry_ctx ++ contexts)
      with (replicate (Datatypes.S d) (@entry_ctx open_frame) ++ contexts).
    rewrite (IHb (context_exit :: ck ++ rest)).
    cbn [replay_loop replay_cmd replicate app].
    unfold context__exit__, context_resume.
    cbn [popcontext RecordLog_Log contextmanager__exit__].
    rewrite rec_popcontext_push_cmd. cbn [_messages _seen].
    rewrite IHk. f_equal. f_equal. fold_cmds.
  - apply andb_prop in Hnr as [Hb Hk].
    destruct (balanced 0 body) as [[|d1]|] eqn:Hbody; try done.
    cbn [transcript].
    set (fr := {| o_id := id; o_data := _seen t !! id; o_f := _ |}).
    pose proof (transcript_frame body fr (_seen t) Hb) as [Hfid Hfdata].
    specialize (IHb Hb _ _ Hbody _ Rec.file_write fr
      (Rec.append (open_enter filename mode lvl id) t)
      (entry_open fr :: replicate d entry_ctx ++ contexts)).
    change (_seen (Rec.append (open_enter filename mode lvl id) t))
      with (_seen t) in IHb.
    destruct (transcript Rec.file_write body fr (_seen t))
      as [[cb fr1] seen1].
    cbn [fst snd replicate app] in IHb, Hfid, Hfdata.
    set (data := match o_data fr1 with
                 | Some data => data
                 | None => io_read (o_f fr1)
                 end).
    set (seen2 := match o_data fr1 with Some _ => seen1 | None => _ end).
    specialize (IHk Hk _ _ Hbal F fw f
      {| _messages :=
           fold_left push_cmd cb
             (_messages (Rec.append (open_enter filename mode lvl id) t))
           ++ [open_exit (Some data)];
         _seen := seen2 |} contexts rest).
    cbn [_messages _seen] in IHk.
    destruct (transcript fw k f seen2) as [[ck f2] seen2'].
    cbn [fst snd] in *.
    cbn [app]. rewrite <- app_assoc. cbn [app replay_loop replay_cmd].
    cbn [open__enter__ RecordLog_Log]. rewrite open__enter__eq. fold fr.
    rewrite (IHb (open_exit (Some data) :: ck ++ rest)).
    cbn [replay_loop replay_cmd].
    cbn [open__exit__ file_write RecordLog_Log].
    assert (Hexit : Rec.open__exit__ (Rec.file_write data fr) None
      {| _messages :=
           fold_left push_cmd cb
             (_messages (Rec.append (open_enter filename mode lvl id) t));
         _seen := seen1 |} =
      ({| _messages :=
            fold_left push_cmd cb
              (_messages (Rec.append (open_enter filename mode lvl id) t))
            ++ [open_exit (Some data)];
          _seen := seen2 |}, Returns false)).
    { unfold Rec.open__exit__, Rec.open_resume. subst data seen2.
      cbn [Rec.file_write o_data o_id o_f]. rewrite Hfdata.
      subst fr. cbn [o_data o_f o_id].
      destruct (_seen t !! id) as [cached|] eqn:Hcached; [done|].
      cbn [io_write io_read].
      destruct (truthy id); done. }
    rewrite Hexit, IHk. f_equal. f_equal. fold_cmds.
  - cbn [transcript]. by apply IHk.
Qed.

(** Replaying a recording onto a fresh [RecordLog] records it again:
    for a well-nested session in which nothing raises and which has popped
    every context it pushed when it ends, the replay succeeds and the
    target ends up equal to the recording, commands and seen-cache. *)
Theorem replay_onto_recordlog (p : session) :
  no_raise p = true →
  balanced 0 p = Some 0 →
  let record := (run_session RecordLog_Log p RecordLog__init__).1 in
  replay RecordLog_Log record RecordLog__init__ = (record, Returns tt).
Proof.
  intros Hnr Hbal record.
  set (fw := λ (_ : string) (u : unit), u).
  pose proof (record_transcript p Hnr fw tt RecordLog__init__) as Hrec.
  pose proof (replay_rec_transcript p Hnr 0 0 Hbal fw tt
                RecordLog__init__ [] []) as Hrep.
  subst record. unfold run_session, replay. fold fw. rewrite Hrec.
  destruct (transcript fw p tt (_seen RecordLog__init__))
    as [[cs u] seen'].
  cbn [fst snd _messages] in *.
  rewrite app_nil_r in Hrep. cbn [replicate app] in Hrep.
  change (_messages RecordLog__init__ ++ cs) with cs in Hrep.
  pose proof (replay_rec_collapse cs [] RecordLog__init__ []) as Hcol.
  cbn [app] in Hcol. rewrite Hrep in Hcol.
  change (_messages RecordLog__init__) with (@nil command).
  by rewrite (replay_body_returns RecordLog_Log _ _ _ _ _ false Hcol).
Qed.

Lemma replay_onto_recordlog_witness :
  let p := Pushcontext "a" (Popcontext
             (Open "f" "w" 1 (Some "k") (FWrite "x" Done)
                (Open "g" "w" 1 (Some "k") (FWrite "y" Done) Done))) in
  replay RecordLog_Log (run_session RecordLog_Log p RecordLog__init__).1
    RecordLog__init__ =
  ((run_session RecordLog_Log p RecordLog__init__).1, Returns tt).
Proof.
  intros p. apply (replay_onto_recordlog p); reflexivity.
Defined.

(** ** Closed generators *)

(** After [__exit__], which closes, the generator is exhausted for good:
    every further [next] signals the end of the sequence without running
    the wrapped generator or touching the state outside, and finalizing it
    issues no warning. *)
Theorem closed_generator_is_exhausted {W G A : Type} (gen : generator W G A)
    (self : ClosingGenerator G) (w : W) (n : nat) :
  let '(w1, self1) := @__exit__ _ _ (ClosingGenerator_Closing gen) self w in
  w1 = (ClosingGenerator_close gen self w).1.1 ∧
  pull gen n self1 w1 = (w1, self1, replicate n StopIteration) ∧
  @__del__ _ _ (ClosingGenerator_Closing gen) self1 w1 = (w1, self1, false).
Proof.
  assert (Hpull : ∀ (w : W) (self : ClosingGenerator G),
    _gen self = None →
    pull gen n self w = (w, self, replicate n StopIteration)).
  { clear. intros w self Hself. induction n as [|n IH]; [done|].
    simpl. unfold __next__ at 1. rewrite Hself. by rewrite IH. }
  unfold __exit__, __del__. cbn [close ClosingGenerator_Closing].
  unfold ClosingGenerator_close at 1 2.
  destruct (_gen self) as [g|] eqn:Hgen.
  - destruct (gen_close gen g w) as [w1 g1].
    split_and!; [done|by apply Hpull|done].
  - split_and!; [done|by apply Hpull|].
    unfold ClosingGenerator_close. by rewrite Hgen.
Qed.

(** ** Log.iter under any consumer *)

Section iter_consumers.
Context {S H : Type} (log : Log S H).
Context {I A : Type} (next : I → option (A * I)).
Context (title : string) (it : iterable I) (length : option nat) (s : S).

Let gen := iter_generator log next.
Let len := match length with
           | None => iterable__len__ it
           | Some _ => length
           end.

Lemma completed_contexts_S (m : nat) (st : S) :
  do_calls log (flat_map (iter_calls title len) (seq 0 (Datatypes.S m))) st =
  popcontext log
    (pushcontext log (iter_text title m len)
       (do_calls log (flat_map (iter_calls title len) (seq 0 m)) st)).
Proof. by rewrite seq_S, flat_map_app, do_calls_app. Qed.

Lemma reachable_next (n : nat) (self : ClosingGenerator (iter_gen I))
    (st : S) :
  iter_reachable log title it length s n self st →
  iter_reachable log title it length s (Datatypes.S n)
    (__next__ gen self st).1.2 (__next__ gen self st).1.1.
Proof.
  unfold iter_reachable. fold len.
  intros [[-> ->]|[(iterator & i & -> & Hi & ->)|[-> (m & Hm & ->)]]].
  - unfold __next__, iter. cbn [_gen compose ClosingGenerator__init__].
    cbn [gen_next gen iter_generator]. unfold iter_next, iter_loop. fold len.
    destruct (next (iterable__iter__ it)) as [[val iterator]|]; cbn [fst snd].
    + right. left. exists iterator, 0. split_and!; [done|lia|done].
    + right. right. split; [done|]. exists 1. split; [lia|done].
  - unfold __next__. cbn [_gen gen_next gen iter_generator].
    unfold iter_next, iter_loop. rewrite Nat.add_1_r.
    destruct (next iterator) as [[val iterator']|]; cbn [fst snd].
    + right. left. exists iterator', (Datatypes.S i).
      split_and!; [done|lia|].
      rewrite !do_calls_app, completed_contexts_S. done.
    + right. right. split; [done|]. exists (Datatypes.S (Datatypes.S i)).
      split; [lia|].
      rewrite !completed_contexts_S, do_calls_app. done.
  - right. right. split; [done|]. exists m. split; [lia|done].
Qed.

Lemma reachable_close (n : nat) (self : ClosingGenerator (iter_gen I))
    (st : S) :
  iter_reachable log title it length s n self st →
  ∃ m, (m ≤ n)%nat ∧
       (ClosingGenerator_close gen self st).1 =
       (do_calls log (flat_map (iter_calls title len) (seq 0 m)) s,
        {| _gen := None |}).
Proof.
  unfold iter_reachable. fold len.
  intros [[-> ->]|[(iterator & i & -> & Hi & ->)|[-> (m & Hm & ->)]]].
  - exists 0. split; [lia|done].
  - exists (Datatypes.S i). split; [lia|].
    unfold ClosingGenerator_close. cbn [_gen gen_close gen iter_generator].
    unfold iter_close. cbn [fst].
    by rewrite completed_contexts_S, do_calls_app.
  - exists m. split; [lia|done].
Qed.

Lemma reachable_drive (acts : list action) :
  ∀ (n : nat) (self : ClosingGenerator (iter_gen I)) (st : S),
    iter_reachable log title it length s n self st →
    iter_reachable log title it length s
      (n + List.length (List.filter is_next acts))
      (drive gen acts self st).2 (drive gen acts self st).1.
Proof.
  induction acts as [|[] acts IH]; intros n self st Hreach.
  - simpl. by rewrite Nat.add_0_r.
  - cbn [drive List.filter is_next List.length].
    pose proof (reachable_next n self st Hreach) as Hnext.
    destruct (__next__ gen self st) as [[st1 self1] r]. cbn [fst snd] in *.
    rewrite <- Nat.add_succ_comm. by apply IH.
  - cbn [drive List.filter is_next].
    destruct (reachable_close n self st Hreach) as (m & Hm & Hclose).
    destruct (ClosingGenerator_close gen self st) as [[st1 self1] r].
    cbn [fst] in Hclose. injection Hclose as -> ->.
    apply IH. right. right. split; [done|]. eauto.
Qed.

End iter_consumers.

(** No consumer makes [Log.iter] leak a context.  Whatever calls of [next]
    and [close] are made on the generator, in any order and over any
    iterator, finite or not, once it is closed the calls made on the log
    are, for some [m] that is at most the number of [next] calls, the push
    and the pop of the contexts of the indices below [m], pair after
    pair. *)
Theorem iter_never_leaks {S H : Type} (log : Log S H) {I A : Type}
    (next : I → option (A * I)) (title : string) (it : iterable I)
    (length : option nat) (acts : list action) (s : S) :
  let gen := iter_generator log next in
  let len := match length with
             | None => iterable__len__ it
             | Some _ => length
             end in
  let '(s1, self1) := drive gen acts (iter title it length) s in
  ∃ m, (m ≤ List.length (List.filter is_next acts))%nat ∧
       (ClosingGenerator_close gen self1 s1).1 =
       (do_calls log (flat_map (iter_calls title len) (seq 0 m)) s,
        {| _gen := None |}).
Proof.
  intros gen len.
  pose proof (reachable_drive log next title it length s acts 0
                (iter title it length) s) as Hreach.
  destruct (drive _ acts (iter title it length) s) as [s1 self1].
  cbn [fst snd] in Hreach.
  apply (reachable_close log next title it length s _ self1 s1).
  apply Hreach. by left.
Qed.

(** ** The leveled file methods *)

(** Each of [debugfile] .. [errorfile] is [open] at its level 0..4.
    Recording [with log.<level>file(name, mode, id=id) as f: f.write(data)]
    on a fresh [RecordLog] leaves the two commands of the file with that
    level and the bytes, and replaying them opens the file at that level
    on the target and puts the bytes in. *)
Theorem leveled_file_roundtrip (lvl : level) (name mode : string)
    (id : ident) (data : string) :
  let log := RecordLog_Log in
  let record :=
    (with_stmt (file log lvl name mode id).1 (file log lvl name mode id).2
       (λ f s, (s, file_write log data f, Returns tt))
       RecordLog__init__).1.1 in
  _messages record =
    [open_enter name mode lvl id; open_exit (Some data)] ∧
  replay TraceLog record [] =
    ([ev_open name mode lvl id; ev_close data], Returns tt) ∧
  (debugfile log, infofile log, userfile log, warningfile log,
   errorfile log) =
    (file log 0, file log 1, file log 2, file log 3, file log 4).
Proof.
  intros log record.
  assert (Hrec : _messages record =
            [open_enter name mode lvl id; open_exit (Some data)]).
  { subst record log. unfold with_stmt, file.
    cbn [fst snd open__enter__ open__exit__ file_write RecordLog_Log].
    rewrite open__enter__eq.
    change (_seen RecordLog__init__ !! id) with ((∅ : gmap ident string) !! id).
    rewrite lookup_empty.
    unfold Rec.open__exit__, Rec.open_resume.
    cbn [Rec.file_write o_data o_id o_f io_write io_read].
    by destruct (truthy id). }
  split_and!; [done| |done].
  unfold replay. by rewrite Hrec.
Qed.

(** ** Contexts in which nothing is logged *)

(** On a [RecordLog], a [with log.context(text)] block whose body records
    nothing leaves the recording as it was, whether the body returns or
    raises; the exception, if any, goes on and is not recorded. *)
Theorem context_leaves_no_trace (text : string)
    (body : RecordLog → RecordLog * outcome unit) (self : RecordLog)
    (r : outcome unit) :
  body (Rec.pushcontext text self) = (Rec.pushcontext text self, r) →
  context RecordLog_Log text body self = (self, r).
Proof.
  intros Hbody. unfold context, with_stmt, context__enter__,
    context__exit__, context_resume.
  cbn [pushcontext popcontext RecordLog_Log]. rewrite Hbody, pop_push.
  destruct r as [[]|e]; simpl; [done|]. by rewrite decide_True.
Qed.

Lemma context_leaves_no_trace_witness :
  let body := λ s : RecordLog, (s, Raises (Exn "E")) in
  let self := {| _messages := [write_cmd "m" 1]; _seen := ∅ |} in
  context RecordLog_Log "c" body self = (self, Raises (Exn "E")).
Proof.
  intros body self.
  apply (context_leaves_no_trace "c" body self (Raises (Exn "E"))).
  reflexivity.
Defined.

Lemma iter_calls_collapse (title : string) (len : option nat)
    (l : list nat) (self : RecordLog) :
  do_calls RecordLog_Log (flat_map (iter_calls title len) l) self = self.
Proof.
  revert self. induction l as [|i l IH]; intros self; [done|].
  cbn [flat_map]. rewrite do_calls_app, IH.
  unfold iter_calls, do_calls. cbn [fold_left do_call].
  apply pop_push.
Qed.

(** Iterating with [log.iter] over a [RecordLog] leaves no trace of its
    own: whatever calls of [next] and [close] the consumer makes, once the
    generator is closed the recording is what it was, the context pushed
    at the end of the sequence included. *)
Theorem iter_on_recordlog_leaves_no_trace {I A : Type}
    (next : I → option (A * I)) (title : string) (it : iterable I)
    (length : option nat) (acts : list action) (self : RecordLog) :
  let gen := iter_generator RecordLog_Log next in
  let '(s1, self1) := drive gen acts (iter title it length) self in
  (ClosingGenerator_close gen self1 s1).1 = (self, {| _gen := None |}).
Proof.
  intros gen. subst gen.
  pose proof (reachable_drive RecordLog_Log next title it length self acts 0
                (iter title it length) self) as Hreach.
  destruct (drive _ acts (iter title it length) self) as [s1 self1].
  cbn [fst snd] in Hreach.
  assert (Hinit : iter_reachable RecordLog_Log title it length self 0
                    (iter title it length) self) by by left.
  destruct (reachable_close RecordLog_Log next title it length self _
              self1 s1 (Hreach Hinit)) as (m & _ & ->).
  by rewrite iter_calls_collapse.
Qed.
